(** * Context Layer: the chunking core

    A shallow embedding of [src/pipeline/chunk.ts] (overlap extractor,
    chunking engine, chunk assembler) and of [src/utils/tokens.ts]
    (token counter, default chunk sizes), with the properties the
    specification states about them.

    JavaScript strings are sequences of UTF-16 code units; they are modelled
    as lists of code units.  The tokenizer (tiktoken's [encoder.encode]) is
    an external library: it is a parameter of the development. *)

From Stdlib Require Import Ascii String List ZArith NArith Bool Lia.
From Stdlib Require Import Sorted Permutation.
Import ListNotations.

Set Implicit Arguments.

(* ------------------------------------------------------------------ *)
(** ** Strings *)

Definition codeUnit := N.
Definition jsstring := list codeUnit.

(** An ASCII literal as a JavaScript string. *)
Definition str (s : string) : jsstring :=
  map N_of_ascii (list_ascii_of_string s).

(** A string is truthy when it is not empty. *)
Definition truthy (s : jsstring) : bool :=
  match s with
  | [] => false
  | _ :: _ => true
  end.

Definition LF : codeUnit := 10%N.
Definition SP : codeUnit := 32%N.

Definition isLF (c : codeUnit) : bool := (c =? LF)%N.

(** The class [\s] of a regular expression, which is also what
    [String.prototype.trim] strips: WhiteSpace and LineTerminator. *)
Definition isWhiteSpace (c : codeUnit) : bool :=
  ((9 <=? c) && (c <=? 13) (* \t \n \v \f \r *)
   || (c =? 32) || (c =? 160) || (c =? 5760)
   || (8192 <=? c) && (c <=? 8202)
   || (c =? 8232) || (c =? 8233) || (c =? 8239) || (c =? 8287)
   || (c =? 12288) || (c =? 65279))%N.

(** The class [[.!?]]. *)
Definition isSentenceEnd (c : codeUnit) : bool :=
  ((c =? 46) || (c =? 33) || (c =? 63))%N.

Fixpoint trimStart (s : jsstring) : jsstring :=
  match s with
  | [] => []
  | c :: r => if isWhiteSpace c then trimStart r else s
  end.

Definition trimEnd (s : jsstring) : jsstring := rev (trimStart (rev s)).

(** [s.trim()] *)
Definition trim (s : jsstring) : jsstring := trimEnd (trimStart s).

(* ------------------------------------------------------------------ *)
(** ** [String.prototype.split] with a regular expression

    [split] walks the string from the left; at each position it asks the
    regular expression for a match that starts exactly there.  A match ends
    the current piece and its characters are dropped; any other character
    joins the current piece.  The piece after the last match is always
    produced, so the result is never empty and [''.split(re)] is [['']]
    for an expression that does not match the empty string.

    A regular expression is modelled by its matcher: given the code unit
    before the position (for a lookbehind) and the input from the position
    on, the number of code units of the match there, if any.  The three
    expressions of the module never match the empty string. *)

Definition matcher := option codeUnit -> jsstring -> option nat.

(** Length of the longest prefix of [s] whose code units satisfy [p]. *)
Fixpoint runLength (p : codeUnit -> bool) (s : jsstring) : nat :=
  match s with
  | [] => 0
  | c :: r => if p c then S (runLength p r) else 0
  end.

(** Add a code unit in front of the first piece. *)
Definition pushFront (c : codeUnit) (pieces : list jsstring) : list jsstring :=
  match pieces with
  | [] => [[c]]
  | p :: ps => (c :: p) :: ps
  end.

(** [skip] code units of a match are still to be dropped. *)
Fixpoint regexSplit (m : matcher) (prev : option codeUnit) (skip : nat)
    (s : jsstring) : list jsstring :=
  match s with
  | [] => [[]]
  | c :: rest =>
      match skip with
      | S k => regexSplit m (Some c) k rest
      | O =>
          match m prev s with
          | Some (S k) => [] :: regexSplit m (Some c) k rest
          | _ => pushFront c (regexSplit m (Some c) 0 rest)
          end
      end
  end.

(** [/\n\n+/] *)
Definition blankLines : matcher := fun _ s =>
  match s with
  | c1 :: c2 :: _ =>
      if isLF c1 && isLF c2 then Some (runLength isLF s) else None
  | _ => None
  end.

(** [/\s+/] *)
Definition whitespaceRun : matcher := fun _ s =>
  match s with
  | c :: _ => if isWhiteSpace c then Some (runLength isWhiteSpace s) else None
  | [] => None
  end.

(** [/(?<=[.!?])\s+/] *)
Definition sentenceGap : matcher := fun prev s =>
  match prev with
  | Some p => if isSentenceEnd p then whitespaceRun prev s else None
  | None => None
  end.

(** [content.split(/\n\n+/)] *)
Definition splitParagraphs (content : jsstring) : list jsstring :=
  regexSplit blankLines None 0 content.

(** [paragraph.split(/(?<=[.!?])\s+/)] *)
Definition splitSentences (paragraph : jsstring) : list jsstring :=
  regexSplit sentenceGap None 0 paragraph.

(** [text.split(/\s+/)] *)
Definition splitWords (text : jsstring) : list jsstring :=
  regexSplit whitespaceRun None 0 text.

(* ------------------------------------------------------------------ *)
(** ** Token counter and default chunk sizes ([utils/tokens.ts]) *)

Definition token := N.

(** tiktoken's [encoder.encode]. *)
Definition tokenizer := jsstring -> list token.

Open Scope Z_scope.

(** [countTokens(text)]: [encoder.encode(text).length] *)
Definition countTokens (encode : tokenizer) (text : jsstring) : Z :=
  Z.of_nat (length (encode text)).

Definition jsstring_eq_dec : forall a b : jsstring, {a = b} + {a <> b} :=
  list_eq_dec N.eq_dec.

Definition strEq (a b : jsstring) : bool :=
  if jsstring_eq_dec a b then true else false.

(** [getDefaultChunkSize(outputFormat)] *)
Definition getDefaultChunkSize (outputFormat : jsstring) : Z :=
  if strEq outputFormat (str "rag") then 500
  else if strEq outputFormat (str "finetune-openai")
          || strEq outputFormat (str "finetune-alpaca") then 1000
  else if strEq outputFormat (str "markdown") then 2000
  else 500.

(* ------------------------------------------------------------------ *)
(** ** Overlap extractor and chunking engine ([pipeline/chunk.ts]) *)

Section Chunking.

Variable encode : tokenizer.

Local Abbreviation count := (countTokens encode).

(** One round of the loop of [getOverlapText]:
    [result = words[i] + (result ? ' ' + result : '')]. *)
Definition prependWord (word result : jsstring) : jsstring :=
  word ++ (if truthy result then SP :: result else []).

(** The loop [for (let i = words.length - 1; i >= 0 && tokens <
    overlapTokens; i--)]; [n] is [i + 1]. *)
Fixpoint overlapLoop (overlapTokens : Z) (words : list jsstring) (n : nat)
    (result : jsstring) (tokens : Z) : jsstring :=
  match n with
  | O => result
  | S i =>
      if tokens <? overlapTokens then
        let result' := prependWord (nth i words []) result in
        overlapLoop overlapTokens words i result' (count result')
      else result
  end.

Definition getOverlapText (text : jsstring) (overlapTokens : Z) : jsstring :=
  if overlapTokens <=? 0 then []
  else
    let words := splitWords text in
    overlapLoop overlapTokens words (length words) [] 0.

(** The variables of [chunkContent] that its loops update. *)
Record accumulator := {
  chunks : list jsstring;
  currentChunk : jsstring;
  currentTokens : Z
}.

Definition emptyAccumulator : accumulator :=
  {| chunks := []; currentChunk := []; currentTokens := 0 |}.

Section Engine.

Variables chunkSize overlap : Z.

(** Body of [for (const sentence of sentences)]. *)
Definition sentenceStep (a : accumulator) (sentence : jsstring) : accumulator :=
  let sentenceTokens := count sentence in
  if (currentTokens a + sentenceTokens >? chunkSize) && truthy (currentChunk a)
  then
    let overlapText := getOverlapText (currentChunk a) overlap in
    let next := overlapText ++ SP :: sentence in
    {| chunks := chunks a ++ [trim (currentChunk a)];
       currentChunk := next;
       currentTokens := count next |}
  else
    {| chunks := chunks a;
       currentChunk :=
         currentChunk a
           ++ (if truthy (currentChunk a) then [SP] else []) ++ sentence;
       currentTokens := currentTokens a + sentenceTokens |}.

(** [if (currentChunk) { chunks.push(currentChunk.trim()); ... }] before an
    oversized paragraph is split. *)
Definition flushIfAny (a : accumulator) : accumulator :=
  if truthy (currentChunk a) then
    {| chunks := chunks a ++ [trim (currentChunk a)];
       currentChunk := [];
       currentTokens := 0 |}
  else a.

(** Body of [for (const paragraph of paragraphs)]. *)
Definition paragraphStep (a : accumulator) (paragraph : jsstring) : accumulator :=
  let paragraphTokens := count paragraph in
  if paragraphTokens >? chunkSize then
    fold_left sentenceStep (splitSentences paragraph) (flushIfAny a)
  else if currentTokens a + paragraphTokens >? chunkSize then
    let overlapText := getOverlapText (currentChunk a) overlap in
    let next := overlapText ++ LF :: LF :: paragraph in
    {| chunks := chunks a ++ [trim (currentChunk a)];
       currentChunk := next;
       currentTokens := count next |}
  else
    {| chunks := chunks a;
       currentChunk :=
         currentChunk a
           ++ (if truthy (currentChunk a) then [LF; LF] else []) ++ paragraph;
       currentTokens := currentTokens a + paragraphTokens |}.

(** The last chunk: [if (currentChunk.trim()) chunks.push(...)]. *)
Definition finish (a : accumulator) : list jsstring :=
  if truthy (trim (currentChunk a)) then chunks a ++ [trim (currentChunk a)]
  else chunks a.

End Engine.

Definition chunkContent (content : jsstring) (chunkSize overlap : Z)
    : list jsstring :=
  finish
    (fold_left (paragraphStep chunkSize overlap) (splitParagraphs content)
       emptyAccumulator).

End Chunking.

(* ------------------------------------------------------------------ *)
(** ** Chunk assembler ([pipeline/chunk.ts]) *)

(** [String(n)] for a non-negative integer: its decimal digits, most
    significant first. *)
Fixpoint digitsAcc (fuel n : nat) (acc : list nat) : list nat :=
  match fuel with
  | O => acc
  | S f =>
      if (n <? 10)%nat then n :: acc
      else digitsAcc f (n / 10)%nat ((n mod 10)%nat :: acc)
  end.

Definition decimalDigits (n : nat) : list nat := digitsAcc (S n) n [].

Definition digitChar (d : nat) : codeUnit := N.of_nat (48 + d).

Definition numberToString (n : nat) : jsstring :=
  map digitChar (decimalDigits n).

(** [s.padStart(targetLength, pad)] for a one-character [pad]. *)
Definition padStart (s : jsstring) (targetLength : nat) (pad : codeUnit)
    : jsstring :=
  repeat pad (targetLength - length s) ++ s.

(** [`chunk-${String(n).padStart(4, '0')}`] *)
Definition chunkIdString (n : nat) : jsstring :=
  str "chunk-" ++ padStart (numberToString n) 4 48%N.

Record ExtractedPage := {
  url : jsstring;
  page_title : jsstring;
  page_content : jsstring;
  headings : list jsstring
}.

Record ChunkOptions := {
  chunkSize : Z;
  chunkOverlap : Z;
  outputFormat : jsstring
}.

(** [Partial<ChunkOptions>]: every field may be absent. *)
Record PartialChunkOptions := {
  partial_chunkSize : option Z;
  partial_chunkOverlap : option Z;
  partial_outputFormat : option jsstring
}.

(** The default argument [{}]. *)
Definition noOptions : PartialChunkOptions :=
  {| partial_chunkSize := None;
     partial_chunkOverlap := None;
     partial_outputFormat := None |}.

Record ChunkMetadata := {
  source_url : jsstring;
  title : jsstring;
  section : jsstring;
  chunk_index : nat;
  total_chunks : nat
}.

Record Chunk := {
  id : jsstring;
  content : jsstring;
  tokenCount : Z;
  metadata : ChunkMetadata
}.

(** [x || d] on numbers: [0] is falsy. *)
Definition orDefault (x d : Z) : Z := if x =? 0 then d else x.

(** [page.headings[0] || ''] *)
Definition firstHeading (hs : list jsstring) : jsstring :=
  match hs with
  | h :: _ => if truthy h then h else []
  | [] => []
  end.

(** [allChunks] and the counter [chunkId] of [chunkPages]. *)
Record assembly := {
  allChunks : list Chunk;
  chunkId : nat
}.

Fixpoint mapIndexed {A B : Type} (f : A -> nat -> B) (i : nat) (l : list A)
    : list B :=
  match l with
  | [] => []
  | x :: r => f x i :: mapIndexed f (S i) r
  end.

Section Assembler.

Variable encode : tokenizer.

(** Body of [for (let i = 0; i < textChunks.length; i++)]. *)
Definition pushChunk (page : ExtractedPage) (textChunks : list jsstring)
    (a : assembly) (i : nat) : assembly :=
  let text := nth i textChunks [] in
  {| allChunks :=
       allChunks a ++
       [ {| id := chunkIdString (chunkId a);
            content := text;
            tokenCount := countTokens encode text;
            metadata :=
              {| source_url := url page;
                 title := page_title page;
                 section := firstHeading (headings page);
                 chunk_index := i;
                 total_chunks := length textChunks |} |} ];
     chunkId := S (chunkId a) |}.

(** Body of [for (const page of pages)]. *)
Definition pageStep (size overlap : Z) (a : assembly) (page : ExtractedPage)
    : assembly :=
  let textChunks := chunkContent encode (page_content page) size overlap in
  fold_left (pushChunk page textChunks) (seq 0 (length textChunks)) a.

(** [options.chunkOverlap ?? 50] is [options.chunkOverlap]: the field of
    [ChunkOptions] is a number. *)
Definition chunkPages (pages : list ExtractedPage) (options : ChunkOptions)
    : list Chunk :=
  let size :=
    orDefault (chunkSize options) (getDefaultChunkSize (outputFormat options)) in
  let overlap := chunkOverlap options in
  allChunks
    (fold_left (pageStep size overlap) pages {| allChunks := []; chunkId := 0 |}).

Definition chunkText (text : jsstring) (options : PartialChunkOptions)
    : list Chunk :=
  let size :=
    match partial_chunkSize options with
    | Some n => orDefault n 500
    | None => 500
    end in
  let overlap :=
    match partial_chunkOverlap options with
    | Some k => k
    | None => 50
    end in
  let textChunks := chunkContent encode text size overlap in
  mapIndexed
    (fun c i =>
       {| id := chunkIdString i;
          content := c;
          tokenCount := countTokens encode c;
          metadata :=
            {| source_url := [];
               title := [];
               section := [];
               chunk_index := i;
               total_chunks := length textChunks |} |})
    0 textChunks.

End Assembler.


(* ------------------------------------------------------------------ *)
(** ** Vocabulary of the statements *)

(** Every code unit is white space. *)
Definition allWhite (s : jsstring) : bool := forallb isWhiteSpace s.

(** No code unit is white space. *)
Definition noWhite (s : jsstring) : bool :=
  forallb (fun c => negb (isWhiteSpace c)) s.

(** [/\n\n+/] matches somewhere in [s]. *)
Fixpoint hasBlankLine (s : jsstring) : bool :=
  match s with
  | c1 :: r =>
      match r with
      | c2 :: _ => isLF c1 && isLF c2 || hasBlankLine r
      | [] => false
      end
  | [] => false
  end.

(** Three line feeds in a row occur somewhere in [s]. *)
Fixpoint hasTripleLF (s : jsstring) : bool :=
  match s with
  | c1 :: r =>
      match r with
      | c2 :: c3 :: _ => isLF c1 && isLF c2 && isLF c3 || hasTripleLF r
      | _ => false
      end
  | [] => false
  end.

(** [/(?<=[.!?])\s+/] matches somewhere in [s], which [prev] precedes. *)
Fixpoint hasSentenceGap (prev : option codeUnit) (s : jsstring) : bool :=
  match s with
  | c :: r =>
      match prev with
      | Some p => isSentenceEnd p && isWhiteSpace c
      | None => false
      end || hasSentenceGap (Some c) r
  | [] => false
  end.

(** [pieces.join(sep)] *)
Fixpoint join (sep : jsstring) (pieces : list jsstring) : jsstring :=
  match pieces with
  | [] => []
  | [p] => p
  | p :: ps => p ++ sep ++ join sep ps
  end.

(** The list without the empty strings at its end. *)
Fixpoint dropTrailingEmpty (ws : list jsstring) : list jsstring :=
  match ws with
  | [] => []
  | w :: r =>
      match dropTrailingEmpty r with
      | [] => if truthy w then [w] else []
      | r' => w :: r'
      end
  end.

(** The text with every run of white space turned into one space and the
    white space at its end removed. *)
Definition normalizeSpaces (text : jsstring) : jsstring :=
  join [SP] (dropTrailingEmpty (splitWords text)).

(** The white space of the text is single spaces between words: every
    white-space code unit is a space and is followed by a code unit that is
    not white space. *)
Fixpoint singleSpaced (s : jsstring) : bool :=
  match s with
  | [] => true
  | c :: r =>
      (if isWhiteSpace c then
         (c =? SP)%N
         && match r with
            | c2 :: _ => negb (isWhiteSpace c2)
            | [] => false
            end
       else true)
      && singleSpaced r
  end.

(** What [getOverlapText] has accumulated once it has taken the words [ws]
    (in reading order). *)
Definition accumulated (ws : list jsstring) : jsstring :=
  fold_right prependWord [] ws.

(** [currentChunk += (currentChunk ? '\n\n' : '') + paragraph] *)
Definition appendParagraph (current paragraph : jsstring) : jsstring :=
  current ++ (if truthy current then [LF; LF] else []) ++ paragraph.

(** Sum of the token counts of the pieces. *)
Definition totalTokens (encode : tokenizer) (pieces : list jsstring) : Z :=
  fold_right (fun p n => countTokens encode p + n) 0 pieces.

(** The number an id ends with: its decimal digits after ["chunk-"]. *)
Definition parseDecimal (s : jsstring) : nat :=
  fold_left (fun acc c => (10 * acc + (N.to_nat c - 48))%nat) s 0%nat.

Definition idNumber (i : jsstring) : nat := parseDecimal (skipn 6 i).

(** [a < b] on strings: code unit by code unit, a proper prefix first. *)
Fixpoint strLt (a b : jsstring) : bool :=
  match a, b with
  | _, [] => false
  | [], _ :: _ => true
  | x :: a', y :: b' => (x <? y)%N || ((x =? y)%N && strLt a' b')
  end.

(** The chunk that [chunkPages] builds from the [i]-th text of a page when
    the counter is [n]. *)
Definition chunkOf (encode : tokenizer) (page : ExtractedPage)
    (textChunks : list jsstring) (n i : nat) : Chunk :=
  {| id := chunkIdString n;
     content := nth i textChunks [];
     tokenCount := countTokens encode (nth i textChunks []);
     metadata :=
       {| source_url := url page;
          title := page_title page;
          section := firstHeading (headings page);
          chunk_index := i;
          total_chunks := length textChunks |} |}.

(** The code units ['0'] to ['9']. *)
Definition isDigit (c : codeUnit) : bool := ((48 <=? c) && (c <=? 57))%N.

(** The chunks that [chunkPages] builds from one page when the counter is
    [start], and from a list of pages, one block for each page. *)
Definition pageChunks (encode : tokenizer) (size overlap : Z)
    (page : ExtractedPage) (start : nat) : list Chunk :=
  let textChunks := chunkContent encode (page_content page) size overlap in
  map (fun i => chunkOf encode page textChunks (start + i) i)
    (seq 0 (length textChunks)).

Fixpoint assemble (encode : tokenizer) (size overlap : Z)
    (pages : list ExtractedPage) (start : nat) : list (list Chunk) :=
  match pages with
  | [] => []
  | page :: rest =>
      let block := pageChunks encode size overlap page start in
      block :: assemble encode size overlap rest (start + length block)
  end.

(** The chunks of one page, as the specification describes them. *)
Definition pageBlock (encode : tokenizer) (size overlap : Z)
    (page : ExtractedPage) (block : list Chunk) : Prop :=
  let textChunks := chunkContent encode (page_content page) size overlap in
  map content block = textChunks
  /\ map (fun c => chunk_index (metadata c)) block = seq 0 (length textChunks)
  /\ Forall (fun c =>
       total_chunks (metadata c) = length block
       /\ tokenCount c = countTokens encode (content c)
       /\ source_url (metadata c) = url page
       /\ title (metadata c) = page_title page
       /\ section (metadata c) = firstHeading (headings page)) block.

(** An upper bound on the rounds of the two loops of [chunkContent]. *)
Definition loopRounds (content : jsstring) : nat :=
  fold_right (fun p n => (1 + length (splitSentences p) + n)%nat) 0%nat
    (splitParagraphs content).

(* ------------------------------------------------------------------ *)
(** ** Chunks with their optional fields, and output formats
       ([utils/format.ts])

    A chunk of the later stages is a [Chunk] with the optional fields
    [enrichment] and [embedding] (the types [Chunk], [EnrichedChunk] and
    [EmbeddedChunk] have the same shape).  The numbers of an embedding
    vector are only carried along: their type is a parameter. *)

Record Enrichment := {
  summary : option jsstring;
  questions : option (list jsstring)
}.

(** The object [{}]. *)
Definition noEnrichment : Enrichment :=
  {| summary := None; questions := None |}.

Record EnrichmentConfig := {
  enabled : bool;
  generateQA : bool;
  generateSummary : bool;
  questionsPerChunk : Z
}.

Record OpenAIMessage := {
  role : jsstring;
  message_content : jsstring
}.

Record OpenAIFineTuneOutput := {
  messages : list OpenAIMessage
}.

Record AlpacaFineTuneOutput := {
  instruction : jsstring;
  input : jsstring;
  output : jsstring
}.

(** The record with the three messages that [generateOpenAIFormat] pushes. *)
Definition openAIRecord (user assistant : jsstring) : OpenAIFineTuneOutput :=
  {| messages :=
       [ {| role := str "system";
            message_content := str "You are a helpful assistant." |};
         {| role := str "user"; message_content := user |};
         {| role := str "assistant"; message_content := assistant |} ] |}.

Definition alpacaRecord (question answer : jsstring) : AlpacaFineTuneOutput :=
  {| instruction := question; input := []; output := answer |}.

Section Formats.

Variable number : Type.

Record EmbeddedChunk := {
  base : Chunk;
  enrichment : option Enrichment;
  embedding : option (list number)
}.

Record RAGOutput := {
  rag_id : jsstring;
  rag_content : jsstring;
  rag_metadata : ChunkMetadata;
  rag_enrichment : Enrichment;
  rag_embedding : option (list number)
}.

(** The elements of the array that [formatOutput] returns. *)
Inductive FormattedOutput :=
| RagItem (r : RAGOutput)
| OpenAIItem (r : OpenAIFineTuneOutput)
| AlpacaItem (r : AlpacaFineTuneOutput)
| ChunkItem (c : EmbeddedChunk).

(** [enrichment.enabled && chunk.enrichment?.questions]: the questions to
    use, when the condition is truthy (an array is, also an empty one). *)
Definition questionsToUse (enrichmentConfig : EnrichmentConfig)
    (chunk : EmbeddedChunk) : option (list jsstring) :=
  if enabled enrichmentConfig then
    match enrichment chunk with
    | Some e => questions e
    | None => None
    end
  else None.

(** [`Explain: ${chunk.metadata.title}`] *)
Definition explainTitle (chunk : EmbeddedChunk) : jsstring :=
  str "Explain: " ++ title (metadata (base chunk)).

(** Body of [for (const chunk of chunks)] in [generateOpenAIFormat]. *)
Definition openAIStep (enrichmentConfig : EnrichmentConfig)
    (records : list OpenAIFineTuneOutput) (chunk : EmbeddedChunk)
    : list OpenAIFineTuneOutput :=
  match questionsToUse enrichmentConfig chunk with
  | Some qs =>
      fold_left
        (fun rs question =>
           rs ++ [openAIRecord question (content (base chunk))])
        qs records
  | None =>
      records ++ [openAIRecord (explainTitle chunk) (content (base chunk))]
  end.

Definition generateOpenAIFormat (chunks : list EmbeddedChunk)
    (enrichmentConfig : EnrichmentConfig) : list OpenAIFineTuneOutput :=
  fold_left (openAIStep enrichmentConfig) chunks [].

(** Body of [for (const chunk of chunks)] in [generateAlpacaFormat]. *)
Definition alpacaStep (enrichmentConfig : EnrichmentConfig)
    (records : list AlpacaFineTuneOutput) (chunk : EmbeddedChunk)
    : list AlpacaFineTuneOutput :=
  match questionsToUse enrichmentConfig chunk with
  | Some qs =>
      fold_left
        (fun rs question =>
           rs ++ [alpacaRecord question (content (base chunk))])
        qs records
  | None =>
      records ++ [alpacaRecord (explainTitle chunk) (content (base chunk))]
  end.

Definition generateAlpacaFormat (chunks : list EmbeddedChunk)
    (enrichmentConfig : EnrichmentConfig) : list AlpacaFineTuneOutput :=
  fold_left (alpacaStep enrichmentConfig) chunks [].

(** The record of the ['rag'] format: [chunk.enrichment || {}], and the
    embedding when the chunk has one. *)
Definition ragRecord (chunk : EmbeddedChunk) : RAGOutput :=
  {| rag_id := id (base chunk);
     rag_content := content (base chunk);
     rag_metadata := metadata (base chunk);
     rag_enrichment :=
       match enrichment chunk with
       | Some e => e
       | None => noEnrichment
       end;
     rag_embedding := embedding chunk |}.

Definition formatOutput (chunks : list EmbeddedChunk) (format : jsstring)
    (enrichmentConfig : EnrichmentConfig) : list FormattedOutput :=
  if strEq format (str "rag") then
    map (fun chunk => RagItem (ragRecord chunk)) chunks
  else if strEq format (str "finetune-openai") then
    map OpenAIItem (generateOpenAIFormat chunks enrichmentConfig)
  else if strEq format (str "finetune-alpaca") then
    map AlpacaItem (generateAlpacaFormat chunks enrichmentConfig)
  else if strEq format (str "markdown") then []
  else map ChunkItem chunks.

(** [pageGroups]: a [Map] from source url to chunks; it keeps the urls in
    the order in which they were first set. *)
Definition pageGroups := list (jsstring * list EmbeddedChunk).

(** [if (!pageGroups.has(url)) pageGroups.set(url, []);
     pageGroups.get(url).push(chunk)] *)
Fixpoint groupPush (u : jsstring) (chunk : EmbeddedChunk)
    (groups : pageGroups) : pageGroups :=
  match groups with
  | [] => [(u, [chunk])]
  | (v, cs) :: rest =>
      if strEq v u then (v, cs ++ [chunk]) :: rest
      else (v, cs) :: groupPush u chunk rest
  end.

Definition groupChunks (chunks : list EmbeddedChunk) : pageGroups :=
  fold_left
    (fun groups chunk => groupPush (source_url (metadata (base chunk))) chunk groups)
    chunks [].

(** [pageChunks.sort((a, b) => a.metadata.chunk_index -
    b.metadata.chunk_index)]: the sort of an array is stable, so the result
    is the one list that is in ascending order of [chunk_index] and keeps
    chunks of equal index in their order; insertion from the right builds
    it. *)
Fixpoint insertByIndex (chunk : EmbeddedChunk) (sorted : list EmbeddedChunk)
    : list EmbeddedChunk :=
  match sorted with
  | [] => [chunk]
  | d :: rest =>
      if (chunk_index (metadata (base chunk))
          <=? chunk_index (metadata (base d)))%nat
      then chunk :: sorted
      else d :: insertByIndex chunk rest
  end.

Definition sortByIndex (chunks : list EmbeddedChunk) : list EmbeddedChunk :=
  fold_right insertByIndex [] chunks.

(** The lines pushed for one chunk of a page. *)
Definition chunkLines (enrichmentConfig : EnrichmentConfig)
    (chunk : EmbeddedChunk) : list jsstring :=
  [content (base chunk); []]
  ++ match (if enabled enrichmentConfig then enrichment chunk else None) with
     | Some e =>
         match summary e with
         | Some s =>
             if truthy s then [str "> **Summary:** " ++ s; []] else []
         | None => []
         end
         ++ match questions e with
            | Some (q :: qs) =>
                [str "**Related Questions:**"]
                ++ map (fun x => str "- " ++ x) (q :: qs) ++ [[]]
            | _ => []
            end
     | None => []
     end.

(** Body of [for (const [url, pageChunks] of pageGroups)].  A group is
    never empty; the title is that of its first chunk once sorted, or
    ['Untitled'] when that title is empty. *)
Definition pageLines (enrichmentConfig : EnrichmentConfig)
    (group : jsstring * list EmbeddedChunk) : list jsstring :=
  let sorted := sortByIndex (snd group) in
  let heading :=
    match sorted with
    | first :: _ =>
        if truthy (title (metadata (base first)))
        then title (metadata (base first))
        else str "Untitled"
    | [] => str "Untitled"
    end in
  [str "# " ++ heading; []; str "> **Source:** " ++ fst group; []]
  ++ flat_map (chunkLines enrichmentConfig) sorted
  ++ [str "---"; []].

(** The array [lines] of [generateMarkdownDocument]. *)
Definition markdownLines (chunks : list EmbeddedChunk)
    (enrichmentConfig : EnrichmentConfig) : list jsstring :=
  fold_left (fun lines group => lines ++ pageLines enrichmentConfig group)
    (groupChunks chunks) [].

(** [lines.join('\n')] *)
Definition generateMarkdownDocument (chunks : list EmbeddedChunk)
    (enrichmentConfig : EnrichmentConfig) : jsstring :=
  join [LF] (markdownLines chunks enrichmentConfig).

(* ------------------------------------------------------------------ *)
(** ** Embeddings ([pipeline/embed.ts])

    [openai.embeddings.create] is the external service: [create i texts]
    is what the call made for the batch that starts at chunk [i] answers,
    the list of the [embedding] fields of [response.data], or [None] when
    the call throws.  Besides the chunks, the model keeps the inputs of the
    calls made and the number of delays waited; it leaves the log out. *)

Definition BATCH_SIZE : nat := 20.

Variable create : nat -> list jsstring -> option (list (list number)).

Record embedRun := {
  embeddedChunks : list EmbeddedChunk;
  calls : list (list jsstring);
  delays : nat
}.

(** [{ ...chunk, embedding }] *)
Definition withEmbedding (chunk : EmbeddedChunk) (v : list number)
    : EmbeddedChunk :=
  {| base := base chunk; enrichment := enrichment chunk; embedding := Some v |}.

(** The loop [for (let j = 0; j < batch.length; j++)]: the chunks pushed,
    and whether the loop came to its end; reading [response.data[j]] past
    the end of [data] throws. *)
Fixpoint pushEmbedded (batch : list EmbeddedChunk) (data : list (list number))
    : list EmbeddedChunk * bool :=
  match batch with
  | [] => ([], true)
  | chunk :: rest =>
      match data with
      | [] => ([], false)
      | v :: data' =>
          let (pushed, done) := pushEmbedded rest data' in
          (withEmbedding chunk v :: pushed, done)
      end
  end.

(** Body of [for (let i = 0; i < chunks.length; i += BATCH_SIZE)]. *)
Definition embedStep (chunks : list EmbeddedChunk) (run : embedRun) (i : nat)
    : embedRun :=
  let batch := firstn BATCH_SIZE (skipn i chunks) in
  let texts := map (fun chunk => content (base chunk)) batch in
  match create i texts with
  | Some data =>
      let (pushed, done) := pushEmbedded batch data in
      if done then
        {| embeddedChunks := embeddedChunks run ++ pushed;
           calls := calls run ++ [texts];
           delays :=
             if (i + BATCH_SIZE <? length chunks)%nat
             then S (delays run) else delays run |}
      else
        {| embeddedChunks := embeddedChunks run ++ pushed ++ batch;
           calls := calls run ++ [texts];
           delays := delays run |}
  | None =>
      {| embeddedChunks := embeddedChunks run ++ batch;
         calls := calls run ++ [texts];
         delays := delays run |}
  end.

(** The values that [i] takes: [0], [BATCH_SIZE], ... below [n]. *)
Definition batchStarts (n : nat) : list nat :=
  map (fun k => (k * BATCH_SIZE)%nat)
    (seq 0 ((n + (BATCH_SIZE - 1)) / BATCH_SIZE)).

Definition embedChunksRun (chunks : list EmbeddedChunk) : embedRun :=
  fold_left (embedStep chunks) (batchStarts (length chunks))
    {| embeddedChunks := []; calls := []; delays := 0 |}.

Definition embedChunks (chunks : list EmbeddedChunk) : list EmbeddedChunk :=
  embeddedChunks (embedChunksRun chunks).

End Formats.

(* ------------------------------------------------------------------ *)
(** ** Vocabulary of the further statements *)

(** The code units of [s] that are not white space, in order. *)
Definition nonWhite (s : jsstring) : jsstring :=
  filter (fun c => negb (isWhiteSpace c)) s.

(** [l1] is [l2] with some of its elements left out. *)
Inductive subseq {A : Type} : list A -> list A -> Prop :=
| subseq_nil : subseq [] []
| subseq_skip : forall x l1 l2, subseq l1 l2 -> subseq l1 (x :: l2)
| subseq_take : forall x l1 l2, subseq l1 l2 -> subseq (x :: l1) (x :: l2).

(** A string that [trimStart] leaves as it is. *)
Definition startsClean (s : jsstring) : Prop :=
  match s with
  | [] => True
  | c :: _ => isWhiteSpace c = false
  end.

(** The three expressions match white space only. *)
Definition whiteMatcher (m : matcher) : Prop :=
  forall prev s n, m prev s = Some n -> (n <= runLength isWhiteSpace s)%nat.

(** The text that [chunkContent] has written so far, white space left out:
    the chunks and the accumulator. *)
Definition written (a : accumulator) : jsstring :=
  nonWhite (concat (chunks a)) ++ nonWhite (currentChunk a).

(** The question and the answer of a fine-tuning record. *)
Definition alpacaOfOpenAI (r : OpenAIFineTuneOutput) : AlpacaFineTuneOutput :=
  match messages r with
  | [_; user; assistant] =>
      alpacaRecord (message_content user) (message_content assistant)
  | _ => alpacaRecord [] []
  end.

(** The urls of a list, each once, in the order of their first
    occurrences. *)
Definition firstUrls (urls : list jsstring) : list jsstring :=
  fold_left
    (fun seen u => if existsb (strEq u) seen then seen else seen ++ [u])
    urls [].

Section FormatVocabulary.

Variable number : Type.

(** A chunk as [chunkPages] makes it: no enrichment, no embedding. *)
Definition fresh (c : Chunk) : EmbeddedChunk number :=
  {| base := c; enrichment := None; embedding := None |}.

(** A chunk without its embedding. *)
Definition withoutEmbedding (c : EmbeddedChunk number)
    : Chunk * option Enrichment :=
  (base c, enrichment c).

Definition urlOf (c : EmbeddedChunk number) : jsstring :=
  source_url (metadata (base c)).

(** The chunks of a list that come from the url [u]. *)
Definition chunksOfUrl (u : jsstring) (chunks : list (EmbeddedChunk number))
    : list (EmbeddedChunk number) :=
  filter (fun c => strEq (urlOf c) u) chunks.

(** The questions and answers that a chunk gives to a fine-tuning format. *)
Definition trainingPairs (enrichmentConfig : EnrichmentConfig)
    (chunk : EmbeddedChunk number) : list (jsstring * jsstring) :=
  match questionsToUse enrichmentConfig chunk with
  | Some qs => map (fun q => (q, content (base chunk))) qs
  | None => [(explainTitle chunk, content (base chunk))]
  end.

(** The chunks in the order in which the Markdown document shows them:
    group after group, each group sorted. *)
Definition documentChunks (chunks : list (EmbeddedChunk number))
    : list (EmbeddedChunk number) :=
  flat_map (fun group => sortByIndex (snd group)) (groupChunks chunks).

(** The chunks are in ascending order of [chunk_index]. *)
Definition sortedByIndex (chunks : list (EmbeddedChunk number)) : Prop :=
  StronglySorted
    (fun a b =>
       (chunk_index (metadata (base a)) <= chunk_index (metadata (base b)))%nat)
    chunks.

End FormatVocabulary.

Arguments urlOf {number} c.
Arguments fresh {number} c.
Arguments withoutEmbedding {number} c.

(** The page that [chunkText] stands for: a text with no source. *)
Definition anonymousPage (text : jsstring) : ExtractedPage :=
  {| url := []; page_title := []; page_content := text; headings := [] |}.

(* ------------------------------------------------------------------ *)
(** ** Inputs of the examples *)

(** The tokenizer without merges, one token per code unit: an instance on
    which the definitions compute. *)
Definition unitTokenizer : tokenizer := fun s => s.

Definition text_two_spaces : jsstring := str "a  b".
Definition text_trailing_space : jsstring := str "a b ".
Definition text_three_words : jsstring := str "one two three".

Definition text_two_paragraphs : jsstring :=
  str "Short one." ++ [LF; LF] ++ str "Short two.".

Definition text_long_sentence : jsstring := str "One long sentence without end".

(** Six white-space code units: tab, line tabulation, form feed, carriage
    return, space, no-break space. *)
Definition text_blank : jsstring := [9; 11; 12; 13; 32; 160]%N.

(** Two blank paragraphs, the white-space-only content of the tests. *)
Definition text_blank_paragraphs : jsstring :=
  str "   " ++ [LF; LF] ++ str "  ".

Definition text_three_line_feeds : jsstring :=
  str "a" ++ [LF; LF; LF] ++ str "b".

Definition text_three_paragraphs : jsstring :=
  str "First." ++ [LF; LF] ++ str "Second." ++ [LF; LF] ++ str "Third.".

Definition page_one : ExtractedPage :=
  {| url := str "https://example.com/one";
     page_title := str "One";
     page_content := text_three_paragraphs;
     headings := [str "Section One"] |}.

Definition page_two : ExtractedPage :=
  {| url := str "https://example.com/two";
     page_title := str "Two";
     page_content := text_two_paragraphs;
     headings := [] |}.

Definition enrichment_on : EnrichmentConfig :=
  {| enabled := true;
     generateQA := true;
     generateSummary := false;
     questionsPerChunk := 3 |}.

(** The chunks of two pages, as [chunkPages] makes them. *)
Definition sample_chunks : list (EmbeddedChunk Z) :=
  map (fresh (number := Z))
    (chunkPages unitTokenizer [page_one; page_two]
       {| chunkSize := 10; chunkOverlap := 0; outputFormat := str "rag" |}).

(** Three embedding services: one that answers every text with a vector
    made from its length, one that is down, and one that answers every call
    with a single vector. *)
Definition lengthVector (text : jsstring) : list Z := [Z.of_nat (length text)].

Definition create_lengths (i : nat) (texts : list jsstring)
    : option (list (list Z)) :=
  Some (map lengthVector texts).

Definition create_down (i : nat) (texts : list jsstring)
    : option (list (list Z)) :=
  None.

Definition create_one (i : nat) (texts : list jsstring)
    : option (list (list Z)) :=
  Some [[0]].

(* ------------------------------------------------------------------ *)
(** ** White space and [trim] *)

Arguments isWhiteSpace : simpl never.
Arguments isSentenceEnd : simpl never.
Arguments isLF : simpl never.
Arguments countTokens : simpl never.

Lemma trimStart_white (w s : jsstring) :
  allWhite w = true -> trimStart (w ++ s) = trimStart s.
Proof.
  induction w as [|c w IH]; simpl; intros H; [reflexivity|].
  apply andb_true_iff in H as [Hc Hw]. rewrite Hc. auto.
Qed.

Lemma trimStart_nil_iff (s : jsstring) :
  trimStart s = [] <-> allWhite s = true.
Proof.
  induction s as [|c s IH]; simpl; [tauto|].
  destruct (isWhiteSpace c); simpl; [exact IH|].
  split; discriminate.
Qed.

Lemma allWhite_app (a b : jsstring) :
  allWhite (a ++ b) = allWhite a && allWhite b.
Proof. apply forallb_app. Qed.

Lemma allWhite_rev (s : jsstring) : allWhite (rev s) = allWhite s.
Proof.
  induction s as [|c s IH]; simpl; [reflexivity|].
  rewrite allWhite_app, IH. simpl. rewrite andb_true_r. apply andb_comm.
Qed.

Lemma trimStart_suffix (s : jsstring) :
  exists w, allWhite w = true /\ s = w ++ trimStart s.
Proof.
  induction s as [|c s (w & Hw & E)]; simpl.
  - exists []. auto.
  - destruct (isWhiteSpace c) eqn:Hc.
    + exists (c :: w). simpl. rewrite Hc, Hw. split; [reflexivity|congruence].
    + exists []. auto.
Qed.

Lemma allWhite_trimStart (s : jsstring) :
  allWhite (trimStart s) = allWhite s.
Proof.
  destruct (trimStart_suffix s) as (w & Hw & E).
  rewrite E at 2. rewrite allWhite_app, Hw. reflexivity.
Qed.

Lemma trim_nil_iff (s : jsstring) : trim s = [] <-> allWhite s = true.
Proof.
  unfold trim, trimEnd.
  rewrite <- (allWhite_trimStart s), <- (allWhite_rev (trimStart s)).
  rewrite <- trimStart_nil_iff.
  split; intros H.
  - apply (f_equal (@rev codeUnit)) in H. rewrite rev_involutive in H. exact H.
  - rewrite H. reflexivity.
Qed.

Lemma trim_white_prefix (w s : jsstring) :
  allWhite w = true -> trim (w ++ s) = trim s.
Proof. intros H. unfold trim. rewrite trimStart_white by exact H. reflexivity. Qed.

Lemma truthy_false_iff (s : jsstring) : truthy s = false <-> s = [].
Proof. destruct s; simpl; split; congruence. Qed.

Lemma truthy_true_iff (s : jsstring) : truthy s = true <-> s <> [].
Proof. destruct s; simpl; split; congruence. Qed.

Lemma isLF_white (c : codeUnit) : isLF c = true -> isWhiteSpace c = true.
Proof.
  unfold isLF, LF. intros H. apply N.eqb_eq in H. subst c. reflexivity.
Qed.

(* ------------------------------------------------------------------ *)
(** ** Properties of [split] *)

Lemma regexSplit_not_nil (m : matcher) (s : jsstring) :
  forall prev skip, regexSplit m prev skip s <> [].
Proof.
  induction s as [|c s IH]; intros prev skip; simpl; [discriminate|].
  destruct skip; [|apply IH].
  destruct (m prev (c :: s)) as [[|k]|];
    try discriminate;
    (specialize (IH (Some c) 0%nat);
     destruct (regexSplit m (Some c) 0 s); [congruence|discriminate]).
Qed.

Lemma join_pushFront (sep : jsstring) (c : codeUnit) (ps : list jsstring) :
  ps <> [] -> join sep (pushFront c ps) = c :: join sep ps.
Proof.
  destruct ps as [|p [|q ps]]; simpl; intros H; congruence.
Qed.

Lemma concat_pushFront (c : codeUnit) (ps : list jsstring) :
  ps <> [] -> concat (pushFront c ps) = c :: concat ps.
Proof. destruct ps; simpl; congruence. Qed.

Lemma length_pushFront (c : codeUnit) (ps : list jsstring) :
  ps <> [] -> length (pushFront c ps) = length ps.
Proof. destruct ps; simpl; congruence. Qed.

(** A string in which the expression matches nowhere is not split. *)
Lemma splitParagraphs_single (s : jsstring) :
  hasBlankLine s = false -> splitParagraphs s = [s].
Proof.
  unfold splitParagraphs. generalize (@None codeUnit).
  induction s as [|c s IH]; intros prev H; [reflexivity|].
  simpl in H. cbn [regexSplit blankLines].
  destruct s as [|c2 s'].
  - reflexivity.
  - apply orb_false_iff in H as [H1 H2]. rewrite H1.
    rewrite (IH (Some c) H2). reflexivity.
Qed.

Lemma regexSplit_sentence_single (s : jsstring) :
  forall prev, hasSentenceGap prev s = false ->
    regexSplit sentenceGap prev 0 s = [s].
Proof.
  induction s as [|c s IH]; intros prev H; [reflexivity|].
  simpl in H. apply orb_false_iff in H as [H1 H2].
  cbn [regexSplit]. rewrite (IH (Some c) H2).
  assert (E : sentenceGap prev (c :: s) = None).
  { unfold sentenceGap, whitespaceRun. destruct prev as [p|]; [|reflexivity].
    destruct (isSentenceEnd p); [|reflexivity].
    simpl in H1. rewrite H1. reflexivity. }
  rewrite E. reflexivity.
Qed.

Lemma splitSentences_single (s : jsstring) :
  hasSentenceGap None s = false -> splitSentences s = [s].
Proof. apply regexSplit_sentence_single. Qed.

(** The code units that [/\n\n+/] removes are white space, so the pieces
    are blank exactly when the string is. *)
Lemma runLength_LF_white (s : jsstring) :
  (runLength isLF s <= runLength isWhiteSpace s)%nat.
Proof.
  induction s as [|c s IH]; simpl; [lia|].
  destruct (isLF c) eqn:E; [|lia].
  rewrite (isLF_white _ E). lia.
Qed.

Lemma blankLines_bound (prev : option codeUnit) (s : jsstring) (n : nat) :
  blankLines prev s = Some n -> (n <= runLength isWhiteSpace s)%nat.
Proof.
  unfold blankLines. destruct s as [|c1 [|c2 s]]; try discriminate.
  destruct (isLF c1 && isLF c2); [|discriminate].
  intros H. injection H as <-. apply (runLength_LF_white (c1 :: c2 :: s)).
Qed.

Lemma allWhite_concat_split (s : jsstring) :
  forall prev skip, (skip <= runLength isWhiteSpace s)%nat ->
    allWhite (concat (regexSplit blankLines prev skip s)) = allWhite s.
Proof.
  induction s as [|c s IH]; intros prev skip H; [reflexivity|].
  cbn [regexSplit]. destruct skip as [|k].
  - destruct (blankLines prev (c :: s)) as [[|k]|] eqn:E.
    + rewrite concat_pushFront by apply regexSplit_not_nil.
      simpl. rewrite IH by lia. reflexivity.
    + apply blankLines_bound in E. simpl in E.
      destruct (isWhiteSpace c) eqn:Hc; [|lia].
      simpl. rewrite Hc. rewrite IH by lia. reflexivity.
    + rewrite concat_pushFront by apply regexSplit_not_nil.
      simpl. rewrite IH by lia. reflexivity.
  - simpl in H. destruct (isWhiteSpace c) eqn:Hc; [|lia].
    simpl. rewrite Hc. rewrite IH by lia. reflexivity.
Qed.

Lemma allWhite_join_blank (ps : list jsstring) :
  allWhite (join [LF; LF] ps) = allWhite (concat ps).
Proof.
  induction ps as [|p ps IH]; [reflexivity|].
  destruct ps as [|q ps].
  - simpl. rewrite app_nil_r. reflexivity.
  - change (join [LF; LF] (p :: q :: ps))
      with (p ++ [LF; LF] ++ join [LF; LF] (q :: ps)).
    change (concat (p :: q :: ps)) with (p ++ concat (q :: ps)).
    rewrite !allWhite_app, IH. reflexivity.
Qed.

(** Joining the paragraphs gives the content back when no run of line feeds
    is longer than two. *)
Lemma join_splitParagraphs_len (n : nat) :
  forall s prev, (length s <= n)%nat -> hasTripleLF s = false ->
    join [LF; LF] (regexSplit blankLines prev 0 s) = s.
Proof.
  induction n as [|n IH]; intros s prev Hn H.
  - destruct s; [reflexivity|simpl in Hn; lia].
  - destruct s as [|c1 s]; [reflexivity|].
    cbn [regexSplit blankLines].
    destruct s as [|c2 s].
    + reflexivity.
    + destruct (isLF c1 && isLF c2) eqn:E.
      * apply andb_true_iff in E as [E1 E2].
        cbn [runLength]. rewrite E1, E2.
        assert (Hs : runLength isLF s = 0%nat /\ hasTripleLF s = false).
        { simpl in H. rewrite E1, E2 in H. destruct s as [|c3 s]; [auto|].
          simpl in H. apply orb_false_iff in H as [H3 H4].
          split.
          - simpl. rewrite H3. reflexivity.
          - destruct s as [|c4 [|c5 s]]; try reflexivity.
            apply orb_false_iff in H4 as [_ H4]. exact H4. }
        destruct Hs as [Hr Ht]. rewrite Hr.
        cbn [regexSplit].
        pose proof (regexSplit_not_nil blankLines s (Some c2) 0) as Hne.
        pose proof (IH s (Some c2) ltac:(simpl in Hn; lia) Ht) as IHs.
        destruct (regexSplit blankLines (Some c2) 0 s) as [|p ps] eqn:Es;
          [congruence|].
        change (join [LF; LF] ([] :: p :: ps))
          with ([LF; LF] ++ join [LF; LF] (p :: ps)).
        rewrite IHs. unfold isLF in E1, E2.
        apply N.eqb_eq in E1, E2. subst. reflexivity.
      * rewrite join_pushFront by apply regexSplit_not_nil.
        rewrite IH; [reflexivity|simpl in Hn; simpl; lia|].
        simpl in H. destruct s as [|c3 s]; [reflexivity|].
        apply orb_false_iff in H as [_ H]. exact H.
Qed.

Lemma join_splitParagraphs (s : jsstring) :
  hasTripleLF s = false -> join [LF; LF] (splitParagraphs s) = s.
Proof. apply (join_splitParagraphs_len (n := length s)). lia. Qed.

(** The pieces of [/\s+/] hold no white space: they are whole words. *)
Lemma regexSplit_words_noWhite (s : jsstring) :
  forall prev skip, Forall (fun w => noWhite w = true)
                      (regexSplit whitespaceRun prev skip s).
Proof.
  induction s as [|c s IH]; intros prev skip.
  - repeat constructor.
  - cbn [regexSplit]. destruct skip as [|k]; [|apply IH].
    unfold whitespaceRun at 1. cbn [runLength].
    destruct (isWhiteSpace c) eqn:Hc.
    + constructor; [reflexivity|apply IH].
    + specialize (IH (Some c) 0%nat).
      destruct (regexSplit whitespaceRun (Some c) 0 s) as [|p ps]; simpl.
      * repeat constructor. unfold noWhite. simpl. rewrite Hc. reflexivity.
      * inversion IH; subst. constructor; [|assumption].
        unfold noWhite in *. simpl. rewrite Hc. assumption.
Qed.

(** A split makes at most one piece more than the string has code units. *)
Lemma length_regexSplit (m : matcher) (s : jsstring) :
  forall prev skip, (length (regexSplit m prev skip s) <= S (length s))%nat.
Proof.
  induction s as [|c s IH]; intros prev skip; simpl; [lia|].
  destruct skip as [|k]; [|specialize (IH (Some c) k); lia].
  destruct (m prev (c :: s)) as [[|k]|];
    try (rewrite length_pushFront by apply regexSplit_not_nil);
    simpl; try (specialize (IH (Some c) 0%nat); lia).
  specialize (IH (Some c) k); lia.
Qed.

(* ------------------------------------------------------------------ *)
(** ** The loop of [getOverlapText] *)

Lemma skipn_nth_cons (ws : list jsstring) :
  forall m, (m < length ws)%nat -> skipn m ws = nth m ws [] :: skipn (S m) ws.
Proof.
  induction ws as [|w ws IH]; intros m H; simpl in H; [lia|].
  destruct m as [|m]; [reflexivity|].
  simpl. apply IH. lia.
Qed.

Lemma accumulated_skipn (ws : list jsstring) (m : nat) :
  (m < length ws)%nat ->
  accumulated (skipn m ws) =
  prependWord (nth m ws []) (accumulated (skipn (S m) ws)).
Proof. intros H. rewrite (skipn_nth_cons ws H). reflexivity. Qed.

Lemma prependWord_nil_iff (w r : jsstring) :
  prependWord w r = [] <-> w = [] /\ r = [].
Proof.
  unfold prependWord. destruct r as [|c r]; simpl.
  - rewrite app_nil_r. tauto.
  - split; [|intros [_ H]; discriminate].
    intros H. apply app_eq_nil in H as [_ H]. discriminate.
Qed.

Lemma join_space_not_nil (ws : list jsstring) :
  dropTrailingEmpty ws <> [] -> join [SP] (dropTrailingEmpty ws) <> [].
Proof.
  induction ws as [|w ws IH]; simpl; [congruence|].
  destruct (dropTrailingEmpty ws) as [|q r].
  - destruct w; simpl; congruence.
  - intros _ H. apply app_eq_nil in H as [_ H]. discriminate.
Qed.

(** The accumulated text is the words joined by single spaces, the empty
    words at the end left out. *)
Lemma accumulated_join (ws : list jsstring) :
  accumulated ws = join [SP] (dropTrailingEmpty ws).
Proof.
  induction ws as [|w ws IH]; [reflexivity|].
  change (accumulated (w :: ws)) with (prependWord w (accumulated ws)).
  rewrite IH. pose proof (join_space_not_nil ws) as Hne.
  cbn [dropTrailingEmpty].
  destruct (dropTrailingEmpty ws) as [|q r].
  - unfold prependWord. simpl. rewrite app_nil_r. destruct w; reflexivity.
  - unfold prependWord.
    destruct (join [SP] (q :: r)) as [|c j] eqn:E.
    + exfalso. apply Hne; [discriminate|reflexivity].
    + change (join [SP] (w :: q :: r)) with (w ++ [SP] ++ join [SP] (q :: r)).
      rewrite E. reflexivity.
Qed.

Lemma dropTrailingEmpty_app (pre sfx : list jsstring) :
  dropTrailingEmpty (pre ++ sfx) =
  match dropTrailingEmpty sfx with
  | [] => dropTrailingEmpty pre
  | s => pre ++ s
  end.
Proof.
  induction pre as [|w pre IH]; simpl.
  - destruct (dropTrailingEmpty sfx); reflexivity.
  - rewrite IH. destruct (dropTrailingEmpty sfx) as [|q r]; [reflexivity|].
    destruct (pre ++ q :: r) eqn:E; [|reflexivity].
    apply app_eq_nil in E as [_ E]. discriminate.
Qed.

Lemma dropTrailingEmpty_incl (ws : list jsstring) :
  forall w, In w (dropTrailingEmpty ws) -> In w ws.
Proof.
  induction ws as [|v ws IH]; simpl; [tauto|].
  intros w. destruct (dropTrailingEmpty ws) as [|q r].
  - destruct (truthy v); simpl; tauto.
  - intros [H|H]; [auto|right; apply IH; exact H].
Qed.

(** What is accumulated from a suffix of the words ends what is accumulated
    from all of them, and starts after a separating space. *)
Lemma accumulated_app (pre sfx : list jsstring) :
  exists lead,
    accumulated (pre ++ sfx) = lead ++ accumulated sfx
    /\ (lead = [] \/ accumulated sfx = [] \/ exists l, lead = l ++ [SP]).
Proof.
  induction pre as [|w pre (lead & E & B)].
  - exists []. auto.
  - change (accumulated ((w :: pre) ++ sfx))
      with (prependWord w (accumulated (pre ++ sfx))).
    rewrite E. unfold prependWord.
    destruct (lead ++ accumulated sfx) as [|c0 x0] eqn:X; simpl.
    + apply app_eq_nil in X as [_ X]. exists w. rewrite X, app_nil_r. auto.
    + rewrite <- X. exists (w ++ SP :: lead).
      split; [rewrite <- app_assoc; reflexivity|].
      destruct B as [B|[B|[l B]]]; subst.
      * right. right. exists w. reflexivity.
      * auto.
      * right. right. exists (w ++ SP :: l).
        rewrite <- app_assoc. reflexivity.
Qed.

Lemma accumulated_pushFront (c : codeUnit) (ws : list jsstring) :
  ws <> [] -> accumulated (pushFront c ws) = c :: accumulated ws.
Proof. destruct ws as [|w ws]; [congruence|reflexivity]. Qed.

(** A text whose white space is single spaces between words is its own
    normal form. *)
Lemma accumulated_singleSpaced (s : jsstring) :
  forall prev,
    singleSpaced s = true ->
    accumulated (regexSplit whitespaceRun prev 0 s) = s.
Proof.
  induction s as [|c s IH]; intros prev H; [reflexivity|].
  cbn [singleSpaced] in H. apply andb_true_iff in H as [Hc Hs].
  cbn [regexSplit]. unfold whitespaceRun at 1. cbn [runLength].
  destruct (isWhiteSpace c) eqn:Ec.
  - apply andb_true_iff in Hc as [Hsp Hnext].
    apply N.eqb_eq in Hsp. subst c.
    destruct s as [|c2 s]; [discriminate|].
    apply negb_true_iff in Hnext. cbn [runLength]. rewrite Hnext.
    change (accumulated ([] :: regexSplit whitespaceRun (Some SP) 0 (c2 :: s)))
      with (prependWord []
              (accumulated (regexSplit whitespaceRun (Some SP) 0 (c2 :: s)))).
    rewrite (IH (Some SP) Hs). reflexivity.
  - rewrite accumulated_pushFront by apply regexSplit_not_nil.
    rewrite (IH (Some c) Hs). reflexivity.
Qed.

Lemma normalizeSpaces_singleSpaced (text : jsstring) :
  singleSpaced text = true -> normalizeSpaces text = text.
Proof.
  intros H. unfold normalizeSpaces. rewrite <- accumulated_join.
  apply accumulated_singleSpaced. exact H.
Qed.

Section Overlap.

Variable encode : tokenizer.

Local Abbreviation count := (countTokens encode).

Lemma countTokens_nonneg (s : jsstring) : 0 <= count s.
Proof. unfold countTokens. lia. Qed.

(** Where the loop stops: it has taken the words from index [m] on; it went
    on only while the count was below the budget. *)
Lemma overlapLoop_spec (b : Z) (words : list jsstring) :
  forall n result tokens,
    (n <= length words)%nat ->
    result = accumulated (skipn n words) ->
    exists m,
      (m <= n)%nat
      /\ overlapLoop encode b words n result tokens =
         accumulated (skipn m words)
      /\ (m = n -> n = 0%nat \/ ~ tokens < b)
      /\ ((m < n)%nat ->
          tokens < b
          /\ (m = 0%nat \/ b <= count (accumulated (skipn m words)))
          /\ forall j, (m < j < n)%nat ->
               count (accumulated (skipn j words)) < b).
Proof.
  induction n as [|i IH]; intros result tokens Hn Hr.
  - exists 0%nat. simpl. repeat split; auto; lia.
  - cbn [overlapLoop]. destruct (tokens <? b) eqn:Ht.
    + apply Z.ltb_lt in Ht.
      assert (Hr' : prependWord (nth i words []) result =
                    accumulated (skipn i words)).
      { rewrite Hr. symmetry. apply accumulated_skipn. lia. }
      destruct (IH _ (count (prependWord (nth i words []) result))
                  ltac:(lia) Hr') as (m & Hm & E & Hstop & Hgo).
      exists m. split; [lia|]. split; [exact E|]. split; [lia|].
      intros _. split; [exact Ht|].
      rewrite Hr' in *.
      destruct (Nat.eq_dec m i) as [->|Hne].
      * split; [destruct (Hstop eq_refl); [auto|right; lia]|].
        intros j Hj. lia.
      * destruct (Hgo ltac:(lia)) as (Hlt & Hb & Hall).
        split; [exact Hb|].
        intros j Hj. destruct (Nat.eq_dec j i) as [->|Hji]; [exact Hlt|].
        apply Hall. lia.
    + apply Z.ltb_ge in Ht. exists (S i).
      split; [lia|]. split; [exact Hr|]. split; [right; lia|lia].
Qed.

Lemma getOverlapText_spec (text : jsstring) (b : Z) :
  0 < b ->
  let words := splitWords text in
  exists m,
    (m < length words)%nat
    /\ getOverlapText encode text b = accumulated (skipn m words)
    /\ (m = 0%nat \/ b <= count (accumulated (skipn m words)))
    /\ forall j, (m < j < length words)%nat ->
         count (accumulated (skipn j words)) < b.
Proof.
  intros Hb words. unfold getOverlapText.
  destruct (b <=? 0) eqn:E; [apply Z.leb_le in E; lia|].
  fold words.
  assert (Hlen : (0 < length words)%nat).
  { pose proof (regexSplit_not_nil whitespaceRun text None 0) as H.
    unfold words, splitWords. destruct (regexSplit _ _ _ _); [congruence|].
    simpl. lia. }
  destruct (overlapLoop_spec b words (n := length words) (result := []) 0
              (le_n _)) as (m & Hm & Eq & Hstop & Hgo).
  { rewrite skipn_all. reflexivity. }
  assert (Hlt : (m < length words)%nat).
  { destruct (Nat.eq_dec m (length words)) as [Hmn|]; [|lia].
    destruct (Hstop Hmn); lia. }
  exists m. destruct (Hgo Hlt) as (_ & H1 & H2). auto.
Qed.

End Overlap.

(* ------------------------------------------------------------------ *)
(** ** Overlap extractor: the statements *)

Section OverlapStatements.

Variable encode : tokenizer.

Local Abbreviation count := (countTokens encode).

(** The result is the single-space join of the last words of the text, the
    empty word that white space at the end of the text makes left out. *)
Lemma getOverlapText_join (text : jsstring) (b : Z) :
  0 < b ->
  exists m pre sfx,
    (m < length (splitWords text))%nat
    /\ getOverlapText encode text b = accumulated (skipn m (splitWords text))
    /\ dropTrailingEmpty (splitWords text) = pre ++ sfx
    /\ getOverlapText encode text b = join [SP] sfx
    /\ Forall (fun w => noWhite w = true) sfx.
Proof.
  intros Hb. destruct (getOverlapText_spec encode text Hb) as (m & Hm & E & _).
  exists m.
  pose proof (firstn_skipn m (splitWords text)) as Hsplit.
  pose proof (dropTrailingEmpty_app (firstn m (splitWords text))
                (skipn m (splitWords text))) as Hd.
  rewrite Hsplit in Hd.
  assert (Hw : forall w, In w (dropTrailingEmpty (skipn m (splitWords text))) ->
                         noWhite w = true).
  { intros w Hin. apply dropTrailingEmpty_incl in Hin.
    pose proof (regexSplit_words_noWhite text None 0) as Hall.
    rewrite Forall_forall in Hall. apply Hall.
    fold (splitWords text). rewrite <- Hsplit. apply in_or_app. auto. }
  rewrite accumulated_join in E.
  destruct (dropTrailingEmpty (skipn m (splitWords text))) as [|q r] eqn:Es.
  - exists (dropTrailingEmpty (firstn m (splitWords text))), [].
    rewrite app_nil_r, accumulated_join, Es. auto.
  - exists (firstn m (splitWords text)), (q :: r).
    rewrite accumulated_join, Es, Forall_forall. auto.
Qed.

(** C4 (as amended): for every text and every budget above zero, the result
    of [getOverlapText] is made of whole words of the text (the single-space
    join of the last words of its word list) and it ends the text with its
    white space normalised, starting there at a word boundary: at the very
    beginning or right after a separating space.  It ends the text itself
    when the white space of the text is single spaces between words. *)
Theorem getOverlapText_word_aligned (text : jsstring) (b : Z) :
  0 < b ->
  exists (pre sfx : list jsstring) (lead : jsstring),
    dropTrailingEmpty (splitWords text) = pre ++ sfx
    /\ Forall (fun w => noWhite w = true) sfx
    /\ getOverlapText encode text b = join [SP] sfx
    /\ normalizeSpaces text = lead ++ getOverlapText encode text b
    /\ (lead = [] \/ getOverlapText encode text b = []
        \/ exists l, lead = l ++ [SP])
    /\ (singleSpaced text = true ->
        text = lead ++ getOverlapText encode text b).
Proof.
  intros Hb.
  destruct (getOverlapText_join text Hb) as (m & pre & sfx & _ & E & Hd & Hj & Hw).
  destruct (accumulated_app (firstn m (splitWords text))
              (skipn m (splitWords text))) as (lead & Hl & Hb').
  rewrite firstn_skipn, accumulated_join in Hl.
  exists pre, sfx, lead. rewrite <- E in Hl, Hb'.
  repeat split; try assumption.
  intros Hs. rewrite <- Hl. symmetry.
  apply normalizeSpaces_singleSpaced. exact Hs.
Qed.


(** C10 (as amended): for every text and budget above zero, the result is
    the single-space join of the last words of the word list of the text
    once the empty word that white space at the end of the text makes is
    left out; the words hold no white space, so every run of white space
    between them has become one space; and when the loop is not stopped
    before the first word (what it has accumulated from fewer words always
    counts fewer tokens than the budget), the result is the whole text with
    its white space normalised. *)
Theorem getOverlapText_normalizes (text : jsstring) (b : Z) :
  0 < b ->
  (exists pre sfx : list jsstring,
      dropTrailingEmpty (splitWords text) = pre ++ sfx
      /\ getOverlapText encode text b = join [SP] sfx)
  /\ Forall (fun w => noWhite w = true) (splitWords text)
  /\ ((forall j, (0 < j < length (splitWords text))%nat ->
         count (join [SP] (dropTrailingEmpty (skipn j (splitWords text)))) < b) ->
      getOverlapText encode text b = normalizeSpaces text).
Proof.
  intros Hb. split; [|split].
  - destruct (getOverlapText_join text Hb) as (m & pre & sfx & _ & _ & Hd & Hj & _).
    exists pre, sfx. auto.
  - apply regexSplit_words_noWhite.
  - intros Hall.
    destruct (getOverlapText_spec encode text Hb) as (m & Hm & E & Hstop & _).
    destruct Hstop as [->|Hge].
    + rewrite E. simpl. apply accumulated_join.
    + specialize (Hall m). rewrite <- accumulated_join in Hall.
      destruct m as [|m]; [rewrite E; simpl; apply accumulated_join|].
      specialize (Hall ltac:(lia)). lia.
Qed.

End OverlapStatements.

(** C4 on ["one two three"] with a budget of five tokens. *)
Lemma getOverlapText_word_aligned_witness :
  exists (pre sfx : list jsstring) (lead : jsstring),
    dropTrailingEmpty (splitWords text_three_words) = pre ++ sfx
    /\ Forall (fun w => noWhite w = true) sfx
    /\ getOverlapText unitTokenizer text_three_words 5 = join [SP] sfx
    /\ normalizeSpaces text_three_words =
       lead ++ getOverlapText unitTokenizer text_three_words 5
    /\ (lead = [] \/ getOverlapText unitTokenizer text_three_words 5 = []
        \/ exists l, lead = l ++ [SP])
    /\ text_three_words =
       lead ++ getOverlapText unitTokenizer text_three_words 5.
Proof.
  destruct (@getOverlapText_word_aligned unitTokenizer text_three_words 5)
    as (pre & sfx & lead & H1 & H2 & H3 & H4 & H5 & H6); [reflexivity|].
  exists pre, sfx, lead.
  split; [exact H1|]. split; [exact H2|]. split; [exact H3|].
  split; [exact H4|]. split; [exact H5|].
  apply H6. reflexivity.
Defined.

(** C4 as stated fails: on ["a  b"] (two spaces) with a budget that both
    words fit in, the result is ["a b"], which does not end ["a  b"]. *)
Lemma getOverlapText_not_a_substring :
  0 < 5
  /\ forall encode : tokenizer,
       countTokens encode (str "b") < 5 ->
       getOverlapText encode text_two_spaces 5 = str "a b"
       /\ forall lead, text_two_spaces <> lead ++ str "a b".
Proof.
  split; [reflexivity|]. intros encode Hb. split.
  - unfold getOverlapText.
    change (splitWords text_two_spaces) with [str "a"; str "b"].
    cbn [Z.leb Z.compare length overlapLoop nth Z.ltb].
    change (prependWord (str "b") []) with (str "b").
    apply Z.ltb_lt in Hb. rewrite Hb. reflexivity.
  - intros [|c1 [|c2 lead]] H; try discriminate.
    apply (f_equal (@length codeUnit)) in H. simpl in H.
    rewrite length_app in H. simpl in H. lia.
Qed.


(** C10 on ["one two three"] with a budget of a hundred tokens. *)
Lemma getOverlapText_normalizes_witness :
  (exists pre sfx : list jsstring,
      dropTrailingEmpty (splitWords text_three_words) = pre ++ sfx
      /\ getOverlapText unitTokenizer text_three_words 100 = join [SP] sfx)
  /\ Forall (fun w => noWhite w = true) (splitWords text_three_words)
  /\ getOverlapText unitTokenizer text_three_words 100 =
     normalizeSpaces text_three_words.
Proof.
  destruct (@getOverlapText_normalizes unitTokenizer text_three_words 100)
    as (H1 & H2 & H3); [reflexivity|].
  split; [exact H1|]. split; [exact H2|].
  apply H3. intros j Hj.
  change (length (splitWords text_three_words)) with 3%nat in Hj.
  destruct j as [|[|[|j]]]; [lia|reflexivity|reflexivity|lia].
Defined.

(** C10 as stated fails: on ["a b "] the word list is ["a"; "b"; ""], and
    with a budget of one token the result (["b"] or ["a b"]) is the join of
    none of its suffixes. *)
Lemma getOverlapText_not_a_join :
  0 < 1
  /\ forall encode : tokenizer,
       encode [] = [] ->
       forall pre sfx : list jsstring,
         splitWords text_trailing_space = pre ++ sfx ->
         getOverlapText encode text_trailing_space 1 <> join [SP] sfx.
Proof.
  split; [reflexivity|]. intros encode Hnil pre sfx Hs.
  assert (R : getOverlapText encode text_trailing_space 1 = str "b"
              \/ getOverlapText encode text_trailing_space 1 = str "a b").
  { unfold getOverlapText.
    change (splitWords text_trailing_space) with [str "a"; str "b"; []].
    cbn [Z.leb Z.compare length overlapLoop nth Z.ltb].
    change (prependWord [] []) with (@nil codeUnit).
    replace (countTokens encode []) with 0
      by (unfold countTokens; rewrite Hnil; reflexivity).
    cbn [Z.ltb Z.compare].
    change (prependWord (str "b") []) with (str "b").
    destruct (countTokens encode (str "b") <? 1); auto. }
  change (splitWords text_trailing_space) with [str "a"; str "b"; []] in Hs.
  assert (J : join [SP] sfx = str "a b " \/ join [SP] sfx = str "b "
              \/ join [SP] sfx = []).
  { destruct pre as [|p1 [|p2 [|p3 [|p4 pre]]]]; simpl in Hs.
    - subst sfx. auto.
    - injection Hs as _ <-. auto.
    - injection Hs as _ _ <-. auto.
    - injection Hs as _ _ _ <-. auto.
    - discriminate. }
  destruct R as [R|R], J as [J|[J|J]]; rewrite R, J; discriminate.
Qed.

(* ------------------------------------------------------------------ *)
(** ** Chunking engine: paragraphs that fit *)

Lemma appendParagraph_truthy (cur : jsstring) (ps : list jsstring) :
  cur <> [] ->
  fold_left appendParagraph ps cur =
  cur ++ concat (map (fun p => LF :: LF :: p) ps).
Proof.
  revert cur. induction ps as [|p ps IH]; intros cur H; simpl.
  - rewrite app_nil_r. reflexivity.
  - rewrite IH.
    + unfold appendParagraph. destruct cur; [congruence|].
      simpl. rewrite <- !app_assoc. reflexivity.
    + unfold appendParagraph. destruct cur; [congruence|discriminate].
Qed.

Lemma join_blank_cons (p : jsstring) (ps : list jsstring) :
  join [LF; LF] (p :: ps) = p ++ concat (map (fun q => LF :: LF :: q) ps).
Proof.
  revert p. induction ps as [|q ps IH]; intros p.
  - simpl. rewrite app_nil_r. reflexivity.
  - change (join [LF; LF] (p :: q :: ps))
      with (p ++ [LF; LF] ++ join [LF; LF] (q :: ps)).
    rewrite IH. reflexivity.
Qed.

(** What the loop accumulates is the join of the paragraphs, up to the blank
    lines that empty leading paragraphs would put in front. *)
Lemma appendParagraph_join (ps : list jsstring) :
  exists w,
    allWhite w = true
    /\ join [LF; LF] ps = w ++ fold_left appendParagraph ps [].
Proof.
  induction ps as [|p ps (w & Hw & E)].
  - exists []. auto.
  - destruct p as [|c p].
    + change (fold_left appendParagraph ([] :: ps) [])
        with (fold_left appendParagraph ps []).
      destruct ps as [|q ps].
      * exists []. auto.
      * exists (LF :: LF :: w).
        change (join [LF; LF] ([] :: q :: ps))
          with (LF :: LF :: join [LF; LF] (q :: ps)).
        rewrite E. split; [exact Hw|reflexivity].
    + exists []. split; [reflexivity|].
      change (fold_left appendParagraph ((c :: p) :: ps) [])
        with (fold_left appendParagraph ps (c :: p)).
      rewrite appendParagraph_truthy by discriminate.
      apply join_blank_cons.
Qed.

Lemma trim_accumulated_paragraphs (ps : list jsstring) :
  trim (fold_left appendParagraph ps []) = trim (join [LF; LF] ps).
Proof.
  destruct (appendParagraph_join ps) as (w & Hw & E).
  rewrite E. symmetry. apply trim_white_prefix. exact Hw.
Qed.

Lemma allWhite_join_splitParagraphs (content : jsstring) :
  allWhite (join [LF; LF] (splitParagraphs content)) = allWhite content.
Proof.
  rewrite allWhite_join_blank. apply allWhite_concat_split. lia.
Qed.

Section EngineProofs.

Variable encode : tokenizer.
Variables chunkSize overlap : Z.

Local Abbreviation count := (countTokens encode).

Lemma totalTokens_nonneg (ps : list jsstring) : 0 <= totalTokens encode ps.
Proof.
  induction ps as [|p ps IH]; simpl; [lia|].
  pose proof (countTokens_nonneg encode p). lia.
Qed.

(** While the paragraphs fit, the loop only appends them. *)
Lemma fold_paragraphs_fit (ps : list jsstring) :
  forall a,
    0 <= currentTokens a ->
    currentTokens a + totalTokens encode ps <= chunkSize ->
    fold_left (paragraphStep encode chunkSize overlap) ps a =
    {| chunks := chunks a;
       currentChunk := fold_left appendParagraph ps (currentChunk a);
       currentTokens := currentTokens a + totalTokens encode ps |}.
Proof.
  induction ps as [|p ps IH]; intros a H0 H.
  - simpl. rewrite Z.add_0_r. destruct a; reflexivity.
  - cbn [fold_left totalTokens fold_right] in *.
    pose proof (countTokens_nonneg encode p) as Hp.
    pose proof (totalTokens_nonneg ps) as Hps.
    fold (totalTokens encode ps) in *.
    assert (E : paragraphStep encode chunkSize overlap a p =
                {| chunks := chunks a;
                   currentChunk := appendParagraph (currentChunk a) p;
                   currentTokens := currentTokens a + count p |}).
    { unfold paragraphStep.
      destruct (count p >? chunkSize) eqn:E1;
        [apply Z.gtb_lt in E1; lia|].
      destruct (currentTokens a + count p >? chunkSize) eqn:E2;
        [apply Z.gtb_lt in E2; lia|].
      reflexivity. }
    rewrite E, IH; cbn [chunks currentChunk currentTokens]; try lia.
    rewrite Z.add_assoc. reflexivity.
Qed.

Lemma fits_join_paragraphs (content : jsstring) :
  trim content <> [] ->
  totalTokens encode (splitParagraphs content) <= chunkSize ->
  chunkContent encode content chunkSize overlap =
  [trim (join [LF; LF] (splitParagraphs content))].
Proof.
  intros Hne Hfit. unfold chunkContent.
  rewrite fold_paragraphs_fit by first [exact Hfit | simpl; lia].
  unfold finish. cbn [chunks currentChunk emptyAccumulator].
  rewrite trim_accumulated_paragraphs.
  destruct (trim (join [LF; LF] (splitParagraphs content))) eqn:E;
    [|reflexivity].
  exfalso. apply Hne. apply trim_nil_iff.
  rewrite <- allWhite_join_splitParagraphs. apply trim_nil_iff. exact E.
Qed.

(** C1 (as amended): for every content that is not blank, when the token
    counts of its paragraphs sum to [chunkSize] at most, [chunkContent]
    returns exactly one chunk: the paragraphs joined by one blank line each,
    trimmed.  That chunk is [content.trim()] when no run of line feeds in
    the content is longer than two; in particular a content of one
    paragraph whose token count is [chunkSize] at most gives exactly the
    chunk [content.trim()]. *)
Theorem chunkContent_fits (content : jsstring) :
  trim content <> [] ->
  (totalTokens encode (splitParagraphs content) <= chunkSize ->
   chunkContent encode content chunkSize overlap =
   [trim (join [LF; LF] (splitParagraphs content))])
  /\ (hasTripleLF content = false ->
      totalTokens encode (splitParagraphs content) <= chunkSize ->
      chunkContent encode content chunkSize overlap = [trim content])
  /\ (hasBlankLine content = false ->
      count content <= chunkSize ->
      chunkContent encode content chunkSize overlap = [trim content]).
Proof.
  intros Hne. split; [|split].
  - apply fits_join_paragraphs. exact Hne.
  - intros Ht Hfit. rewrite fits_join_paragraphs by assumption.
    rewrite join_splitParagraphs by exact Ht. reflexivity.
  - intros Hb Hfit. rewrite fits_join_paragraphs; try assumption.
    + rewrite splitParagraphs_single by exact Hb. reflexivity.
    + rewrite splitParagraphs_single by exact Hb. simpl. lia.
Qed.

(** C3 (as amended): for every content that is not blank, is one paragraph
    (no run of two line feeds or more) and holds no sentence boundary (no
    white space after ['.'], ['!'] or ['?']), when its token count is above
    [chunkSize], [chunkContent] returns exactly one chunk, the trimmed
    content, kept whole. *)
Theorem chunkContent_keeps_long_sentence (content : jsstring) :
  trim content <> [] ->
  hasBlankLine content = false ->
  hasSentenceGap None content = false ->
  chunkSize < count content ->
  chunkContent encode content chunkSize overlap = [trim content].
Proof.
  intros Hne Hb Hs Hbig. unfold chunkContent.
  rewrite splitParagraphs_single by exact Hb.
  cbn [fold_left]. unfold paragraphStep.
  apply Z.gtb_lt in Hbig. rewrite Hbig.
  rewrite splitSentences_single by exact Hs.
  unfold flushIfAny, emptyAccumulator, finish, sentenceStep. simpl.
  rewrite andb_false_r. simpl.
  destruct (trim content); [congruence|reflexivity].
Qed.

(** The empty content gives no chunk, whatever the tokenizer and the sizes. *)
Lemma chunkContent_empty : chunkContent encode [] chunkSize overlap = [].
Proof.
  unfold chunkContent.
  change (splitParagraphs []) with [@nil codeUnit].
  cbn [fold_left]. unfold paragraphStep, emptyAccumulator.
  cbn [currentTokens Z.add].
  destruct (count [] >? chunkSize) eqn:E.
  - change (splitSentences []) with [@nil codeUnit].
    unfold flushIfAny, sentenceStep, finish. simpl.
    rewrite andb_false_r. reflexivity.
  - reflexivity.
Qed.

(** Each round of the loops adds one chunk at most. *)
Lemma sentenceStep_chunks (a : accumulator) (s : jsstring) :
  (length (chunks (sentenceStep encode chunkSize overlap a s))
   <= S (length (chunks a)))%nat.
Proof.
  unfold sentenceStep.
  destruct ((currentTokens a + count s >? chunkSize) && truthy (currentChunk a));
    cbn [chunks]; [rewrite length_app; simpl; lia|lia].
Qed.

Lemma fold_sentences_chunks (ss : list jsstring) :
  forall a,
    (length (chunks (fold_left (sentenceStep encode chunkSize overlap) ss a))
     <= length ss + length (chunks a))%nat.
Proof.
  induction ss as [|s ss IH]; intros a; simpl; [lia|].
  specialize (IH (sentenceStep encode chunkSize overlap a s)).
  pose proof (sentenceStep_chunks a s). lia.
Qed.

Lemma paragraphStep_chunks (a : accumulator) (p : jsstring) :
  (length (chunks (paragraphStep encode chunkSize overlap a p))
   <= 1 + length (splitSentences p) + length (chunks a))%nat.
Proof.
  unfold paragraphStep. destruct (count p >? chunkSize).
  - pose proof (fold_sentences_chunks (splitSentences p) (flushIfAny a)) as H.
    assert (length (chunks (flushIfAny a)) <= S (length (chunks a)))%nat.
    { unfold flushIfAny. destruct (truthy (currentChunk a)); cbn [chunks];
        [rewrite length_app; simpl; lia|lia]. }
    lia.
  - destruct (currentTokens a + count p >? chunkSize); cbn [chunks];
      [rewrite length_app; simpl; lia|lia].
Qed.

Lemma fold_paragraphs_chunks (ps : list jsstring) :
  forall a,
    (length (chunks (fold_left (paragraphStep encode chunkSize overlap) ps a))
     <= fold_right (fun p n => 1 + length (splitSentences p) + n) 0 ps
        + length (chunks a))%nat.
Proof.
  induction ps as [|p ps IH]; intros a; simpl; [lia|].
  specialize (IH (paragraphStep encode chunkSize overlap a p)).
  pose proof (paragraphStep_chunks a p). simpl in *. lia.
Qed.

End EngineProofs.

(* ------------------------------------------------------------------ *)
(** ** Chunking engine: the statements on concrete contents *)

(** C1 on ["Short one.\n\nShort two."] and on a content of one paragraph,
    with a chunk size of 500. *)
Lemma chunkContent_fits_witness :
  chunkContent unitTokenizer text_two_paragraphs 500 0 =
  [trim (join [LF; LF] (splitParagraphs text_two_paragraphs))]
  /\ chunkContent unitTokenizer text_two_paragraphs 500 0 =
     [trim text_two_paragraphs]
  /\ chunkContent unitTokenizer text_long_sentence 500 0 =
     [trim text_long_sentence].
Proof.
  destruct (@chunkContent_fits unitTokenizer 500 0 text_two_paragraphs)
    as (H1 & H2 & _); [vm_compute; discriminate|].
  destruct (@chunkContent_fits unitTokenizer 500 0 text_long_sentence)
    as (_ & _ & H3); [vm_compute; discriminate|].
  split; [apply H1; vm_compute; discriminate|].
  split; [apply H2; [reflexivity|vm_compute; discriminate]|].
  apply H3; [reflexivity|vm_compute; discriminate].
Defined.

(** C1 as stated fails on the empty content: its token count, zero, is
    within every chunk size, and no chunk is returned, where the statement
    promises the one chunk [''.trim()]. *)
Lemma chunkContent_fits_not_for_empty :
  (0 < 500 /\ 0 <= 0)
  /\ forall encode : tokenizer,
       encode [] = [] ->
       countTokens encode [] <= 500
       /\ chunkContent encode [] 500 0 = []
       /\ chunkContent encode [] 500 0 <> [trim []].
Proof.
  split; [split; [reflexivity|discriminate]|].
  intros encode Hnil. rewrite chunkContent_empty.
  unfold countTokens. rewrite Hnil.
  repeat split; discriminate.
Qed.

(** A run of three line feeds is turned into one blank line: the chunk is
    not [content.trim()] then. *)
Lemma chunkContent_normalizes_blank_lines :
  forall encode : tokenizer,
    countTokens encode (str "a") + countTokens encode (str "b") <= 500 ->
    chunkContent encode text_three_line_feeds 500 0 =
    [str "a" ++ [LF; LF] ++ str "b"]
    /\ trim text_three_line_feeds = text_three_line_feeds.
Proof.
  intros encode H. split; [|reflexivity].
  rewrite fits_join_paragraphs.
  - reflexivity.
  - vm_compute. discriminate.
  - change (splitParagraphs text_three_line_feeds) with [str "a"; str "b"].
    cbn [totalTokens fold_right]. lia.
Qed.

(** C3 on a sentence of 29 code units with a chunk size of 5. *)
Lemma chunkContent_keeps_long_sentence_witness :
  chunkContent unitTokenizer text_long_sentence 5 0 = [trim text_long_sentence].
Proof.
  apply (@chunkContent_keeps_long_sentence unitTokenizer 5 0
            text_long_sentence).
  - vm_compute. discriminate.
  - reflexivity.
  - reflexivity.
  - reflexivity.
Defined.

(** C3 as stated fails on a blank content: it is one paragraph without a
    sentence boundary, and when it counts more tokens than [chunkSize] no
    chunk is returned, where the statement promises one. *)
Lemma chunkContent_drops_blank_sentence :
  hasBlankLine text_blank = false
  /\ hasSentenceGap None text_blank = false
  /\ forall encode : tokenizer,
       1 < countTokens encode text_blank ->
       chunkContent encode text_blank 1 0 = []
       /\ chunkContent encode text_blank 1 0 <> [trim text_blank].
Proof.
  split; [reflexivity|]. split; [reflexivity|].
  intros encode Hbig.
  assert (E : chunkContent encode text_blank 1 0 = []).
  { unfold chunkContent.
    change (splitParagraphs text_blank) with [text_blank].
    cbn [fold_left]. unfold paragraphStep.
    apply Z.gtb_lt in Hbig. rewrite Hbig.
    change (splitSentences text_blank) with [text_blank].
    unfold flushIfAny, emptyAccumulator, finish, sentenceStep. simpl.
    rewrite andb_false_r. reflexivity. }
  rewrite E. split; [reflexivity|discriminate].
Qed.

(** C2, where the code departs from it: with a chunk size of one token the
    white-space-only content ["   \n\n  "] gives one chunk, the empty
    string, for every tokenizer that gives a token at least to every string
    that is not empty.  The first blank paragraph fills the accumulator;
    the second one does not fit, and the accumulator is flushed with no
    check that its trimmed text is empty. *)
Theorem chunkContent_blank_chunk (encode : tokenizer) (overlap : Z) :
  (forall s : jsstring, s <> [] -> encode s <> []) ->
  chunkContent encode text_blank_paragraphs 1 overlap = [[]].
Proof.
  intros Hpos.
  assert (Hone : forall s, s <> [] -> 1 <= countTokens encode s).
  { intros s Hs. specialize (Hpos s Hs). unfold countTokens.
    destruct (encode s); [congruence|simpl length; lia]. }
  pose proof (Hone (str "   ") ltac:(discriminate)) as H3.
  pose proof (Hone (str "  ") ltac:(discriminate)) as H2.
  assert (Ho : getOverlapText encode (str "   ") overlap = []).
  { unfold getOverlapText. destruct (overlap <=? 0); [reflexivity|].
    change (splitWords (str "   ")) with [@nil codeUnit; []].
    cbn [length overlapLoop nth]. destruct (0 <? overlap); [|reflexivity].
    change (prependWord [] []) with (@nil codeUnit).
    destruct (countTokens encode [] <? overlap); reflexivity. }
  unfold chunkContent.
  change (splitParagraphs text_blank_paragraphs) with [str "   "; str "  "].
  cbn [fold_left].
  assert (E1 : paragraphStep encode 1 overlap emptyAccumulator (str "   ") =
               {| chunks := [];
                  currentChunk := str "   ";
                  currentTokens := countTokens encode (str "   ") |}).
  { unfold paragraphStep.
    destruct (countTokens encode (str "   ") >? 1) eqn:E.
    - change (splitSentences (str "   ")) with [str "   "].
      unfold flushIfAny, sentenceStep, emptyAccumulator. simpl.
      rewrite andb_false_r. reflexivity.
    - unfold emptyAccumulator. simpl. rewrite E. reflexivity. }
  rewrite E1. unfold paragraphStep. cbn [currentTokens currentChunk chunks].
  destruct (countTokens encode (str "  ") >? 1) eqn:E.
  - change (splitSentences (str "  ")) with [str "  "].
    unfold flushIfAny, sentenceStep, finish. simpl.
    rewrite andb_false_r. reflexivity.
  - destruct (countTokens encode (str "   ") + countTokens encode (str "  ") >? 1)
      eqn:E2.
    + rewrite Ho. reflexivity.
    + rewrite Z.gtb_ltb in E2. apply Z.ltb_ge in E2. lia.
Qed.

Lemma chunkContent_blank_chunk_witness :
  chunkContent unitTokenizer text_blank_paragraphs 1 0 = [[]].
Proof.
  apply (chunkContent_blank_chunk unitTokenizer 0).
  intros s H. exact H.
Defined.

(** ** Chunking engine: termination *)

Lemma length_concat_regexSplit (m : matcher) (s : jsstring) :
  forall prev skip,
    (length (concat (regexSplit m prev skip s)) <= length s)%nat.
Proof.
  induction s as [|c s IH]; intros prev skip; simpl; [lia|].
  destruct skip as [|k]; [|specialize (IH (Some c) k); lia].
  destruct (m prev (c :: s)) as [[|k]|];
    try (rewrite concat_pushFront by apply regexSplit_not_nil);
    simpl; try (specialize (IH (Some c) 0%nat); lia).
  specialize (IH (Some c) k); lia.
Qed.

Lemma rounds_bound (ps : list jsstring) :
  (fold_right (fun p n => 1 + length (splitSentences p) + n) 0 ps
   <= 2 * length ps + length (concat ps))%nat.
Proof.
  induction ps as [|p ps IH]; simpl in *; [lia|].
  pose proof (length_regexSplit sentenceGap p None 0) as H.
  fold (splitSentences p) in H. rewrite length_app. lia.
Qed.

Lemma loopRounds_bound (content : jsstring) :
  (loopRounds content <= 3 * length content + 2)%nat.
Proof.
  unfold loopRounds.
  pose proof (rounds_bound (splitParagraphs content)) as H.
  pose proof (length_regexSplit blankLines content None 0) as H1.
  pose proof (length_concat_regexSplit blankLines content None 0) as H2.
  fold (splitParagraphs content) in H1, H2. lia.
Qed.

(** C9: [chunkContent] returns on every content, for every tokenizer, every
    [chunkSize] and every [overlap], also when [overlap >= chunkSize]: its
    loops go once over the paragraphs of the content and once over the
    sentences of a paragraph (and the loop of [getOverlapText] down the
    words), each round adds one chunk at most, so the result has at most
    one chunk more than there are rounds, which the length of the content
    alone bounds. *)
Theorem chunkContent_terminates (encode : tokenizer) (content : jsstring)
    (chunkSize overlap : Z) :
  exists out : list jsstring,
    chunkContent encode content chunkSize overlap = out
    /\ (length out <= S (loopRounds content))%nat
    /\ (loopRounds content <= 3 * length content + 2)%nat.
Proof.
  eexists. split; [reflexivity|]. split; [|apply loopRounds_bound].
  unfold chunkContent, finish, loopRounds.
  pose proof (fold_paragraphs_chunks encode chunkSize overlap
                (splitParagraphs content) emptyAccumulator) as H.
  cbn [emptyAccumulator chunks length] in H. rewrite Nat.add_0_r in H.
  destruct (truthy _); [rewrite length_app; cbn [length]|]; lia.
Qed.

(* ------------------------------------------------------------------ *)
(** ** Chunk ids *)

Lemma parseDecimal_zeros (k : nat) (s : jsstring) :
  parseDecimal (repeat 48%N k ++ s) = parseDecimal s.
Proof.
  unfold parseDecimal. rewrite fold_left_app.
  replace (fold_left _ (repeat 48%N k) 0%nat) with 0%nat; [reflexivity|].
  induction k as [|k IH]; simpl; [reflexivity|exact IH].
Qed.

Lemma parseDecimal_digits (l : list nat) :
  Forall (fun d => d < 10)%nat l ->
  forall acc,
    fold_left (fun a c => (10 * a + (N.to_nat c - 48))%nat)
      (map digitChar l) acc =
    fold_left (fun a d => (10 * a + d)%nat) l acc.
Proof.
  induction 1 as [|d l Hd _ IH]; intros acc; [reflexivity|].
  cbn [map fold_left]. rewrite IH. f_equal. unfold digitChar. lia.
Qed.

Lemma digitsAcc_bounded (fuel : nat) :
  forall n acc,
    Forall (fun d => d < 10)%nat acc ->
    Forall (fun d => d < 10)%nat (digitsAcc fuel n acc).
Proof.
  induction fuel as [|f IH]; intros n acc H; cbn [digitsAcc]; [exact H|].
  destruct (n <? 10)%nat eqn:E.
  - constructor; [apply Nat.ltb_lt; exact E|exact H].
  - apply IH. constructor; [|exact H].
    apply (Nat.mod_upper_bound n 10). discriminate.
Qed.

Lemma digitsAcc_value (fuel : nat) :
  forall n acc,
    (n < fuel)%nat ->
    fold_left (fun a d => (10 * a + d)%nat) (digitsAcc fuel n acc) 0%nat =
    fold_left (fun a d => (10 * a + d)%nat) acc n.
Proof.
  induction fuel as [|f IH]; intros n acc H; [lia|].
  cbn [digitsAcc]. destruct (n <? 10)%nat eqn:E.
  - cbn [fold_left]. f_equal.
  - apply Nat.ltb_ge in E. rewrite IH.
    + cbn [fold_left]. f_equal.
      pose proof (Nat.div_mod_eq n 10). lia.
    + assert (n / 10 < n)%nat by (apply Nat.div_lt; lia). lia.
Qed.

(** Reading the digits of [String(n)] gives [n] back. *)
Lemma parseDecimal_numberToString (n : nat) :
  parseDecimal (numberToString n) = n.
Proof.
  unfold parseDecimal, numberToString, decimalDigits.
  rewrite parseDecimal_digits by (apply digitsAcc_bounded; constructor).
  rewrite digitsAcc_value by lia. reflexivity.
Qed.

Lemma idNumber_chunkIdString (n : nat) : idNumber (chunkIdString n) = n.
Proof.
  unfold idNumber, chunkIdString.
  change (skipn 6 (str "chunk-" ++ padStart (numberToString n) 4 48%N))
    with (padStart (numberToString n) 4 48%N).
  unfold padStart. rewrite parseDecimal_zeros.
  apply parseDecimal_numberToString.
Qed.

Lemma digits_are_digits (l : list nat) :
  Forall (fun d => d < 10)%nat l -> forallb isDigit (map digitChar l) = true.
Proof.
  induction 1 as [|d l Hd _ IH]; [reflexivity|].
  cbn [map forallb]. rewrite IH, andb_true_r.
  unfold isDigit, digitChar.
  apply andb_true_iff. split; apply N.leb_le; lia.
Qed.

Lemma length_digitsAcc (fuel : nat) :
  forall n acc d,
    (n < 10 ^ S d)%nat ->
    (length (digitsAcc fuel n acc) <= S d + length acc)%nat.
Proof.
  induction fuel as [|f IH]; intros n acc d H; cbn [digitsAcc]; [lia|].
  destruct (n <? 10)%nat eqn:E; [simpl; lia|].
  apply Nat.ltb_ge in E. destruct d as [|d].
  - change (10 ^ 1)%nat with 10%nat in H. lia.
  - assert (Hq : (n / 10 < 10 ^ S d)%nat).
    { apply Nat.Div0.div_lt_upper_bound.
      rewrite (Nat.pow_succ_r' 10 (S d)) in H. exact H. }
    specialize (IH _ ((n mod 10)%nat :: acc) d Hq).
    cbn [length] in IH. lia.
Qed.

(** An id is ["chunk-"] and four decimal digits or more: exactly four
    while the counter is below 10000. *)
Lemma chunkIdString_form (n : nat) :
  exists digits,
    chunkIdString n = str "chunk-" ++ digits
    /\ (4 <= length digits)%nat
    /\ forallb isDigit digits = true
    /\ ((n < 10 ^ 4)%nat -> length digits = 4%nat).
Proof.
  exists (padStart (numberToString n) 4 48%N).
  split; [reflexivity|]. unfold padStart. split; [|split].
  - rewrite length_app, repeat_length. lia.
  - rewrite forallb_app. apply andb_true_iff. split.
    + induction (4 - length (numberToString n))%nat; [reflexivity|assumption].
    + apply digits_are_digits, digitsAcc_bounded. constructor.
  - intros Hn. rewrite length_app, repeat_length.
    pose proof (@length_digitsAcc (S n) n [] 3 Hn) as H.
    unfold numberToString, decimalDigits. rewrite length_map.
    cbn [length] in H. lia.
Qed.

(** Strings of decimal digits of one length are ordered as their
    numbers. *)
Lemma strLt_app (p a b : jsstring) : strLt (p ++ a) (p ++ b) = strLt a b.
Proof.
  induction p as [|c p IH]; [reflexivity|].
  cbn [app strLt]. rewrite N.ltb_irrefl, N.eqb_refl. exact IH.
Qed.

Lemma parseDecimal_acc (s : jsstring) :
  forall acc,
    fold_left (fun a c => (10 * a + (N.to_nat c - 48))%nat) s acc =
    (acc * 10 ^ length s
     + fold_left (fun a c => (10 * a + (N.to_nat c - 48))%nat) s 0)%nat.
Proof.
  induction s as [|c s IH]; intros acc.
  - cbn [fold_left length]. rewrite Nat.pow_0_r. lia.
  - cbn [fold_left length].
    rewrite (IH (10 * acc + (N.to_nat c - 48))%nat),
      (IH (10 * 0 + (N.to_nat c - 48))%nat), Nat.pow_succ_r'.
    nia.
Qed.

Lemma parseDecimal_bound (s : jsstring) :
  forallb isDigit s = true -> (parseDecimal s < 10 ^ length s)%nat.
Proof.
  unfold parseDecimal. induction s as [|c s IH]; intros H.
  - cbn [fold_left length]. rewrite Nat.pow_0_r. lia.
  - cbn [forallb] in H. apply andb_true_iff in H as [Hc Hs].
    specialize (IH Hs). cbn [fold_left length].
    rewrite parseDecimal_acc, Nat.pow_succ_r'.
    unfold isDigit in Hc. apply andb_true_iff in Hc as [_ Hc].
    apply N.leb_le in Hc. nia.
Qed.

Lemma strLt_digits (s1 : jsstring) :
  forall s2,
    length s1 = length s2 ->
    forallb isDigit s1 = true ->
    forallb isDigit s2 = true ->
    (parseDecimal s1 < parseDecimal s2)%nat ->
    strLt s1 s2 = true.
Proof.
  induction s1 as [|c1 s1 IH]; intros [|c2 s2] Hlen H1 H2 Hlt;
    try discriminate Hlen.
  - unfold parseDecimal in Hlt. cbn [fold_left] in Hlt. lia.
  - cbn [forallb] in H1, H2.
    apply andb_true_iff in H1 as [Hc1 H1].
    apply andb_true_iff in H2 as [Hc2 H2].
    injection Hlen as Hlen.
    pose proof (parseDecimal_bound s1 H1) as B1.
    pose proof (parseDecimal_bound s2 H2) as B2.
    unfold parseDecimal in Hlt, B1, B2, IH. cbn [fold_left] in Hlt.
    rewrite (parseDecimal_acc s1), (parseDecimal_acc s2) in Hlt.
    rewrite <- Hlen in Hlt, B2.
    unfold isDigit in Hc1, Hc2.
    apply andb_true_iff in Hc1 as [L1 U1].
    apply andb_true_iff in Hc2 as [L2 U2].
    apply N.leb_le in L1, U1, L2, U2.
    cbn [strLt]. destruct (c1 <? c2)%N eqn:E; [reflexivity|].
    apply N.ltb_ge in E. cbn [orb].
    destruct (c1 =? c2)%N eqn:E2.
    + apply N.eqb_eq in E2. subst c2. cbn [andb].
      apply IH; try assumption. lia.
    + apply N.eqb_neq in E2. exfalso.
      assert (Hd : (N.to_nat c2 - 48 + 1 <= N.to_nat c1 - 48)%nat) by lia.
      nia.
Qed.

(** Below 10000 the ids are ordered, as strings, as their numbers. *)
Lemma chunkIdString_lt (n m : nat) :
  (n < m)%nat -> (m < 10 ^ 4)%nat ->
  strLt (chunkIdString n) (chunkIdString m) = true.
Proof.
  intros Hnm Hm.
  destruct (chunkIdString_form n) as (dn & En & _ & Dn & Ln).
  destruct (chunkIdString_form m) as (dm & Em & _ & Dm & Lm).
  pose proof (idNumber_chunkIdString n) as Nn.
  pose proof (idNumber_chunkIdString m) as Nm.
  rewrite En in Nn |- *. rewrite Em in Nm |- *.
  unfold idNumber in Nn, Nm.
  change (skipn 6 (str "chunk-" ++ dn)) with dn in Nn.
  change (skipn 6 (str "chunk-" ++ dm)) with dm in Nm.
  rewrite strLt_app. apply strLt_digits; try assumption.
  - rewrite Ln, Lm by lia. reflexivity.
  - lia.
Qed.

Lemma nth_error_seq (n : nat) :
  forall start i,
    (i < n)%nat -> nth_error (seq start n) i = Some (start + i)%nat.
Proof.
  induction n as [|n IH]; intros start i Hi; [lia|].
  destruct i as [|i]; cbn [seq nth_error].
  - rewrite Nat.add_0_r. reflexivity.
  - rewrite IH by lia. f_equal. lia.
Qed.

(* ------------------------------------------------------------------ *)
(** ** Chunk assembler *)

Lemma seq_shift_add (start n : nat) :
  map (fun i => (start + i)%nat) (seq 0 n) = seq start n.
Proof.
  revert start. induction n as [|n IH]; intros start; [reflexivity|].
  simpl. rewrite Nat.add_0_r. f_equal.
  rewrite <- (IH (S start)), <- seq_shift, map_map.
  apply map_ext. intros i. lia.
Qed.

Lemma map_nth_seq_all (l : list jsstring) :
  map (fun i => nth i l []) (seq 0 (length l)) = l.
Proof.
  induction l as [|x l IH]; [reflexivity|].
  simpl. f_equal. rewrite <- seq_shift, map_map. exact IH.
Qed.

Section AssemblerProofs.

Variable encode : tokenizer.

(** The inner loop adds the chunks of the page and advances the counter by
    their number. *)
Lemma fold_pushChunk (page : ExtractedPage) (texts : list jsstring) (n : nat) :
  forall s a,
    fold_left (pushChunk encode page texts) (seq s n) a =
    {| allChunks :=
         allChunks a ++
         map (fun i => chunkOf encode page texts (chunkId a + (i - s)) i)
           (seq s n);
       chunkId := chunkId a + n |}.
Proof.
  induction n as [|n IH]; intros s a.
  - simpl. rewrite app_nil_r, Nat.add_0_r. destruct a; reflexivity.
  - cbn [seq fold_left map]. rewrite IH.
    unfold pushChunk at 1 2 3. cbn [allChunks chunkId].
    rewrite <- app_assoc. f_equal; [|lia].
    f_equal. cbn [app]. f_equal.
    + replace (chunkId a + (s - s))%nat with (chunkId a) by lia. reflexivity.
    + apply map_ext_in. intros i Hi. apply in_seq in Hi.
      f_equal. lia.
Qed.

Lemma pageStep_spec (size overlap : Z) (a : assembly) (page : ExtractedPage) :
  pageStep encode size overlap a page =
  {| allChunks := allChunks a ++ pageChunks encode size overlap page (chunkId a);
     chunkId :=
       chunkId a + length (pageChunks encode size overlap page (chunkId a)) |}.
Proof.
  unfold pageStep. rewrite fold_pushChunk. unfold pageChunks.
  rewrite length_map, length_seq. f_equal. f_equal.
  apply map_ext. intros i. f_equal. lia.
Qed.

Lemma fold_pageStep (size overlap : Z) (pages : list ExtractedPage) :
  forall a,
    allChunks (fold_left (pageStep encode size overlap) pages a) =
    allChunks a ++ concat (assemble encode size overlap pages (chunkId a)).
Proof.
  induction pages as [|page pages IH]; intros a.
  - simpl. rewrite app_nil_r. reflexivity.
  - cbn [fold_left assemble concat]. rewrite IH, pageStep_spec.
    cbn [allChunks chunkId]. rewrite <- app_assoc. reflexivity.
Qed.

Lemma chunkPages_assemble (pages : list ExtractedPage) (options : ChunkOptions) :
  chunkPages encode pages options =
  concat
    (assemble encode
       (orDefault (chunkSize options)
          (getDefaultChunkSize (outputFormat options)))
       (chunkOverlap options) pages 0).
Proof. unfold chunkPages. rewrite fold_pageStep. reflexivity. Qed.

Lemma pageChunks_ids (size overlap : Z) (page : ExtractedPage) (start : nat) :
  map id (pageChunks encode size overlap page start) =
  map chunkIdString
    (seq start (length (pageChunks encode size overlap page start))).
Proof.
  unfold pageChunks. rewrite length_map, length_seq, map_map.
  cbn [chunkOf id]. rewrite <- (seq_shift_add start), map_map. reflexivity.
Qed.

Lemma assemble_ids (size overlap : Z) (pages : list ExtractedPage) :
  forall start,
    map id (concat (assemble encode size overlap pages start)) =
    map chunkIdString
      (seq start (length (concat (assemble encode size overlap pages start)))).
Proof.
  induction pages as [|page pages IH]; intros start; [reflexivity|].
  cbn [assemble concat]. rewrite map_app, length_app, seq_app, map_app.
  rewrite IH, pageChunks_ids. reflexivity.
Qed.

Lemma pageChunks_block (size overlap : Z) (page : ExtractedPage) (start : nat) :
  pageBlock encode size overlap page
    (pageChunks encode size overlap page start).
Proof.
  unfold pageBlock, pageChunks. rewrite !map_map. cbn [chunkOf content metadata chunk_index].
  split; [apply map_nth_seq_all|]. split; [apply map_id|].
  apply Forall_forall. intros c Hc. apply in_map_iff in Hc as (i & <- & _).
  rewrite length_map, length_seq. cbn. auto.
Qed.

Lemma assemble_blocks (size overlap : Z) (pages : list ExtractedPage) :
  forall start,
    Forall2 (pageBlock encode size overlap) pages
      (assemble encode size overlap pages start).
Proof.
  induction pages as [|page pages IH]; intros start; constructor.
  - apply pageChunks_block.
  - apply IH.
Qed.

Lemma assemble_contents (size overlap : Z) (pages : list ExtractedPage) :
  forall start,
    map content (concat (assemble encode size overlap pages start)) =
    flat_map (fun p => chunkContent encode (page_content p) size overlap) pages.
Proof.
  induction pages as [|page pages IH]; intros start; [reflexivity|].
  cbn [assemble concat flat_map]. rewrite map_app, IH. f_equal.
  apply (pageChunks_block size overlap page start).
Qed.

End AssemblerProofs.

Lemma mapIndexed_map {A B C : Type} (f : A -> nat -> B) (g : B -> C)
    (l : list A) :
  forall s, map g (mapIndexed f s l) = mapIndexed (fun x i => g (f x i)) s l.
Proof.
  induction l as [|x l IH]; intros s; [reflexivity|].
  simpl. rewrite IH. reflexivity.
Qed.

Lemma mapIndexed_fst {A : Type} (l : list A) :
  forall s, mapIndexed (fun x _ => x) s l = l.
Proof.
  induction l as [|x l IH]; intros s; [reflexivity|].
  simpl. rewrite IH. reflexivity.
Qed.

Lemma mapIndexed_snd {A B : Type} (g : nat -> B) (l : list A) :
  forall s, mapIndexed (fun _ i => g i) s l = map g (seq s (length l)).
Proof.
  induction l as [|x l IH]; intros s; [reflexivity|].
  simpl. rewrite IH. reflexivity.
Qed.

Lemma length_mapIndexed {A B : Type} (f : A -> nat -> B) (l : list A) :
  forall s, length (mapIndexed f s l) = length l.
Proof.
  induction l as [|x l IH]; intros s; [reflexivity|].
  simpl. rewrite IH. reflexivity.
Qed.

Lemma Forall_mapIndexed {A B : Type} (P : B -> Prop) (f : A -> nat -> B)
    (l : list A) :
  (forall x i, P (f x i)) -> forall s, Forall P (mapIndexed f s l).
Proof.
  intros H. induction l as [|x l IH]; intros s; constructor; auto.
Qed.

Lemma nth_error_seq_0 (n i k : nat) :
  nth_error (seq 0 n) i = Some k -> k = i.
Proof.
  intros H.
  assert (Hi : (i < n)%nat).
  { assert (Hn : nth_error (seq 0 n) i <> None) by congruence.
    apply nth_error_Some in Hn. rewrite length_seq in Hn. exact Hn. }
  apply nth_error_nth with (d := 0%nat) in H.
  rewrite seq_nth in H by exact Hi. simpl in H. congruence.
Qed.

(* ------------------------------------------------------------------ *)
(** ** Chunk assembler: the statements *)

Section AssemblerStatements.

Variable encode : tokenizer.

(** C6 (as amended): over a whole run of [chunkPages] on any list of
    pages, every text that [chunkContent] gives for a page gets an id, and
    the ids come from one counter that starts at 0 and is not reset between
    pages: the id of the chunk at position [k] of the output is ["chunk-"]
    followed by [k] in decimal digits, padded with zeros to four digits at
    least (exactly four digits while [k] is below 10000).  The numbers of
    the ids are 0, 1, 2, ... in emission order, strictly increasing; the
    ids are pairwise distinct; and as strings the ids increase in emission
    order up to the id of number 9999. *)
Theorem chunkPages_ids (pages : list ExtractedPage) (options : ChunkOptions) :
  map content (chunkPages encode pages options) =
  flat_map
    (fun p =>
       chunkContent encode (page_content p)
         (orDefault (chunkSize options)
            (getDefaultChunkSize (outputFormat options)))
         (chunkOverlap options))
    pages
  /\ map id (chunkPages encode pages options) =
     map chunkIdString (seq 0 (length (chunkPages encode pages options)))
  /\ map (fun c => idNumber (id c)) (chunkPages encode pages options) =
     seq 0 (length (chunkPages encode pages options))
  /\ NoDup (map id (chunkPages encode pages options))
  /\ (forall i j ci cj,
        (i < j)%nat ->
        nth_error (chunkPages encode pages options) i = Some ci ->
        nth_error (chunkPages encode pages options) j = Some cj ->
        (idNumber (id ci) < idNumber (id cj))%nat
        /\ id ci <> id cj
        /\ ((j < 10 ^ 4)%nat -> strLt (id ci) (id cj) = true))
  /\ Forall (fun c =>
       exists digits,
         id c = str "chunk-" ++ digits
         /\ (4 <= length digits)%nat
         /\ forallb isDigit digits = true
         /\ ((idNumber (id c) < 10 ^ 4)%nat -> length digits = 4%nat))
       (chunkPages encode pages options).
Proof.
  assert (Hids : map id (chunkPages encode pages options) =
                 map chunkIdString
                   (seq 0 (length (chunkPages encode pages options)))).
  { rewrite chunkPages_assemble. apply assemble_ids. }
  assert (Hnum : map (fun c => idNumber (id c)) (chunkPages encode pages options) =
                 seq 0 (length (chunkPages encode pages options))).
  { rewrite <- (map_map id idNumber), Hids, map_map.
    rewrite (map_ext _ (fun n => n) idNumber_chunkIdString). apply map_id. }
  assert (Hid : forall i c,
             nth_error (chunkPages encode pages options) i = Some c ->
             id c = chunkIdString i).
  { intros i c Hi. apply (map_nth_error id) in Hi. rewrite Hids in Hi.
    rewrite nth_error_map in Hi.
    destruct (nth_error (seq 0 _) i) as [k|] eqn:Ek; [|discriminate Hi].
    apply nth_error_seq_0 in Ek. subst k. injection Hi as <-. reflexivity. }
  split.
  { rewrite chunkPages_assemble. apply assemble_contents. }
  split; [exact Hids|]. split; [exact Hnum|]. split; [|split].
  - apply (NoDup_map_inv idNumber). rewrite map_map, Hnum. apply seq_NoDup.
  - intros i j ci cj Hij Hi Hj.
    rewrite (Hid i ci Hi), (Hid j cj Hj), !idNumber_chunkIdString.
    split; [exact Hij|]. split.
    + intros E. apply (f_equal idNumber) in E.
      rewrite !idNumber_chunkIdString in E. lia.
    + intros Hj4. apply chunkIdString_lt; assumption.
  - apply Forall_forall. intros c Hc.
    apply (in_map id) in Hc. rewrite Hids in Hc.
    apply in_map_iff in Hc as (n & <- & _).
    rewrite idNumber_chunkIdString. apply chunkIdString_form.
Qed.

(** C7: the output of [chunkPages] is, page after page in the order of the
    pages, the chunks of each page: their contents are the texts that
    [chunkContent] returns for the page, in that order; their
    [chunk_index] are 0, 1, ..., with no gap; [total_chunks] is the number
    of chunks of the page; [tokenCount] is [countTokens] of the content;
    and the source metadata are those of the page. *)
Theorem chunkPages_blocks (pages : list ExtractedPage) (options : ChunkOptions) :
  exists blocks : list (list Chunk),
    chunkPages encode pages options = concat blocks
    /\ Forall2
         (pageBlock encode
            (orDefault (chunkSize options)
               (getDefaultChunkSize (outputFormat options)))
            (chunkOverlap options))
         pages blocks.
Proof.
  eexists. split; [apply chunkPages_assemble|apply assemble_blocks].
Qed.

(** C8: [getDefaultChunkSize] is 500 for ['rag'], 1000 for
    ['finetune-openai'] and ['finetune-alpaca'], 2000 for ['markdown'] and
    500 for any other format; with a [chunkSize] of zero [chunkPages]
    chunks every page with that default; [chunkText] takes 500 for an
    absent or zero [chunkSize] and 50 for an absent [chunkOverlap], gives
    the texts of [chunkContent] ids numbered from 0 by position (each id is
    ["chunk-"] followed by four decimal digits or more, and the numbers
    read from the ids are 0, 1, 2, ...), and leaves [source_url], [title]
    and [section] empty. *)
Theorem default_chunk_sizes :
  (getDefaultChunkSize (str "rag") = 500
   /\ getDefaultChunkSize (str "finetune-openai") = 1000
   /\ getDefaultChunkSize (str "finetune-alpaca") = 1000
   /\ getDefaultChunkSize (str "markdown") = 2000
   /\ forall format : jsstring,
        format <> str "rag" ->
        format <> str "finetune-openai" ->
        format <> str "finetune-alpaca" ->
        format <> str "markdown" ->
        getDefaultChunkSize format = 500)
  /\ (forall (pages : list ExtractedPage) (options : ChunkOptions),
        chunkSize options = 0 ->
        map content (chunkPages encode pages options) =
        flat_map
          (fun p =>
             chunkContent encode (page_content p)
               (getDefaultChunkSize (outputFormat options))
               (chunkOverlap options))
          pages)
  /\ (forall (text : jsstring) (options : PartialChunkOptions),
        let size :=
          match partial_chunkSize options with
          | Some n => if n =? 0 then 500 else n
          | None => 500
          end in
        let overlap :=
          match partial_chunkOverlap options with
          | Some k => k
          | None => 50
          end in
        map content (chunkText encode text options) =
        chunkContent encode text size overlap
        /\ map id (chunkText encode text options) =
           map chunkIdString
             (seq 0 (length (chunkContent encode text size overlap)))
        /\ map (fun c => idNumber (id c)) (chunkText encode text options) =
           seq 0 (length (chunkContent encode text size overlap))
        /\ Forall (fun c =>
             exists digits,
               id c = str "chunk-" ++ digits
               /\ (4 <= length digits)%nat
               /\ forallb isDigit digits = true
               /\ ((idNumber (id c) < 10 ^ 4)%nat -> length digits = 4%nat))
             (chunkText encode text options)
        /\ map (fun c => chunk_index (metadata c)) (chunkText encode text options) =
           seq 0 (length (chunkContent encode text size overlap))
        /\ Forall (fun c =>
             source_url (metadata c) = []
             /\ title (metadata c) = []
             /\ section (metadata c) = []
             /\ total_chunks (metadata c) =
                length (chunkContent encode text size overlap)
             /\ tokenCount c = countTokens encode (content c))
             (chunkText encode text options)).
Proof.
  split; [|split].
  - repeat split; try reflexivity.
    intros format H1 H2 H3 H4. unfold getDefaultChunkSize, strEq.
    repeat (destruct (jsstring_eq_dec _ _); [congruence|]). reflexivity.
  - intros pages options H0. rewrite chunkPages_assemble, assemble_contents.
    rewrite H0. reflexivity.
  - intros text options size overlap. unfold chunkText.
    fold size overlap. unfold orDefault.
    split; [|split; [|split; [|split; [|split]]]].
    + rewrite mapIndexed_map. cbn [content]. apply mapIndexed_fst.
    + rewrite mapIndexed_map. cbn [id]. apply mapIndexed_snd.
    + rewrite mapIndexed_map. cbn [id].
      rewrite (mapIndexed_snd (fun i => idNumber (chunkIdString i))).
      rewrite (map_ext _ (fun n => n) idNumber_chunkIdString). apply map_id.
    + apply Forall_mapIndexed. intros x i. cbn [id].
      rewrite idNumber_chunkIdString. apply chunkIdString_form.
    + rewrite mapIndexed_map. cbn [metadata chunk_index].
      rewrite (mapIndexed_snd (fun i => i)). apply map_id.
    + apply Forall_mapIndexed. intros x i. cbn. auto.
Qed.

End AssemblerStatements.

Lemma length_flat_map_repeat {A B : Type} (f : A -> list B) (x : A) (n : nat) :
  length (flat_map f (repeat x n)) = (n * length (f x))%nat.
Proof.
  induction n as [|n IH]; [reflexivity|].
  cbn [repeat flat_map]. rewrite length_app, IH. lia.
Qed.

(** C6 as stated fails: a run that makes more than 10000 chunks (here 10001
    pages of one chunk each) gives the chunk of number 10000 the id
    ["chunk-10000"], with five digits; as a string it comes before
    ["chunk-9999"], the id emitted just before it. *)
Lemma chunkPages_id_of_five_digits :
  let chunks :=
    chunkPages unitTokenizer (repeat page_two (10 ^ 4 + 1))
      {| chunkSize := 500; chunkOverlap := 0; outputFormat := str "rag" |} in
  nth_error (map id chunks) (10 ^ 4) = Some (str "chunk-10000")
  /\ nth_error (map id chunks) (10 ^ 4 - 1) = Some (str "chunk-9999")
  /\ strLt (str "chunk-10000") (str "chunk-9999") = true.
Proof.
  intros chunks.
  assert (Hlen : length chunks = (10 ^ 4 + 1)%nat).
  { pose proof (assemble_contents unitTokenizer 500 0
                  (repeat page_two (10 ^ 4 + 1)) 0) as Hc.
    apply (f_equal (@length jsstring)) in Hc.
    rewrite length_map, length_flat_map_repeat in Hc.
    assert (H1 : length (chunkContent unitTokenizer (page_content page_two)
                           500 0) = 1%nat) by (vm_compute; reflexivity).
    rewrite H1, Nat.mul_1_r in Hc.
    unfold chunks. rewrite chunkPages_assemble. exact Hc. }
  assert (Hids : map id chunks = map chunkIdString (seq 0 (10 ^ 4 + 1))).
  { rewrite <- Hlen. unfold chunks. rewrite chunkPages_assemble.
    apply assemble_ids. }
  rewrite Hids, !nth_error_map, !nth_error_seq by lia.
  cbn [option_map Nat.add].
  split; [|split]; vm_compute; reflexivity.
Qed.

(* ------------------------------------------------------------------ *)
(** ** The definitions at work *)

Example splitParagraphs_example :
  splitParagraphs text_three_line_feeds = [str "a"; str "b"].
Proof. reflexivity. Qed.

Example splitWords_example :
  splitWords (str " a  b ") = [[]; str "a"; str "b"; []].
Proof. reflexivity. Qed.

Example splitSentences_example :
  splitSentences (str "One. Two!  Three ? no") =
  [str "One."; str "Two!"; str "Three ?"; str "no"].
Proof. reflexivity. Qed.

Example getOverlapText_example :
  getOverlapText unitTokenizer text_three_words 5 = str "three"
  /\ getOverlapText unitTokenizer text_three_words 6 = str "two three"
  /\ getOverlapText unitTokenizer text_three_words 0 = [].
Proof. repeat split; reflexivity. Qed.

(** The overlap is taken from the chunk that was just flushed. *)
Example chunkContent_overlap_example :
  chunkContent unitTokenizer text_three_paragraphs 14 4 =
  [str "First." ++ [LF; LF] ++ str "Second.";
   str "Second." ++ [LF; LF] ++ str "Third."].
Proof. reflexivity. Qed.

(** An overlap above the chunk size: the chunks are still one for each
    round at most. *)
Example chunkContent_large_overlap_example :
  chunkContent unitTokenizer text_three_paragraphs 6 50 =
  [str "First."; str "Second."; str "Second." ++ [LF; LF] ++ str "Third."]
  /\ chunkContent unitTokenizer (str "One. Two. Three. Four.") 5 9 =
     [str "One."; str "One. Two."; str "One. Two. Three.";
      str "Two. Three. Four."].
Proof. split; reflexivity. Qed.

(** The counter goes on from one page to the next. *)
Example chunkPages_example :
  map (fun c => (id c, chunk_index (metadata c), total_chunks (metadata c)))
    (chunkPages unitTokenizer [page_one; page_two]
       {| chunkSize := 10; chunkOverlap := 0; outputFormat := str "rag" |}) =
  [(str "chunk-0000", 0%nat, 3%nat);
   (str "chunk-0001", 1%nat, 3%nat);
   (str "chunk-0002", 2%nat, 3%nat);
   (str "chunk-0003", 0%nat, 2%nat);
   (str "chunk-0004", 1%nat, 2%nat)].
Proof. reflexivity. Qed.

Example chunkText_example :
  map id
    (chunkText unitTokenizer text_three_paragraphs
       {| partial_chunkSize := Some 5;
          partial_chunkOverlap := None;
          partial_outputFormat := None |}) =
  [str "chunk-0000"; str "chunk-0001"; str "chunk-0002"].
Proof. reflexivity. Qed.

(* ------------------------------------------------------------------ *)
(** ** Chunking engine: what every chunk and every content keeps *)

Lemma subseq_refl {A : Type} (l : list A) : subseq l l.
Proof. induction l; constructor; assumption. Qed.

Lemma subseq_app {A : Type} (a1 a2 b1 b2 : list A) :
  subseq a1 a2 -> subseq b1 b2 -> subseq (a1 ++ b1) (a2 ++ b2).
Proof.
  induction 1; intros Hb; simpl.
  - exact Hb.
  - apply subseq_skip. auto.
  - apply subseq_take. auto.
Qed.

Lemma subseq_insert {A : Type} (p o x ins : list A) :
  subseq p o -> subseq (p ++ x) (o ++ ins ++ x).
Proof.
  intros H. apply subseq_app; [exact H|].
  induction ins; simpl; [apply subseq_refl|constructor; assumption].
Qed.

Lemma subseq_length {A : Type} (l1 l2 : list A) :
  subseq l1 l2 -> (length l1 <= length l2)%nat.
Proof. induction 1; simpl; lia. Qed.

Lemma nonWhite_app (a b : jsstring) :
  nonWhite (a ++ b) = nonWhite a ++ nonWhite b.
Proof. apply filter_app. Qed.

Lemma nonWhite_allWhite (w : jsstring) :
  allWhite w = true -> nonWhite w = [].
Proof.
  induction w as [|c w IH]; simpl; [reflexivity|].
  intros H. apply andb_true_iff in H as [Hc Hw]. rewrite Hc. simpl. auto.
Qed.

Lemma nonWhite_nil_iff (s : jsstring) :
  nonWhite s = [] <-> allWhite s = true.
Proof.
  split; [|apply nonWhite_allWhite].
  induction s as [|c s IH]; simpl; [reflexivity|].
  destruct (isWhiteSpace c); simpl; [exact IH|discriminate].
Qed.

Lemma nonWhite_rev (s : jsstring) : nonWhite (rev s) = rev (nonWhite s).
Proof.
  induction s as [|c s IH]; [reflexivity|].
  simpl. rewrite nonWhite_app, IH. simpl.
  destruct (isWhiteSpace c); simpl; [apply app_nil_r|reflexivity].
Qed.

Lemma nonWhite_trimStart (s : jsstring) : nonWhite (trimStart s) = nonWhite s.
Proof.
  destruct (trimStart_suffix s) as (w & Hw & E).
  rewrite E at 2. rewrite nonWhite_app, (nonWhite_allWhite _ Hw). reflexivity.
Qed.

(** [trim] removes white space only. *)
Lemma nonWhite_trim (s : jsstring) : nonWhite (trim s) = nonWhite s.
Proof.
  unfold trim, trimEnd.
  rewrite nonWhite_rev, nonWhite_trimStart, nonWhite_rev, rev_involutive.
  apply nonWhite_trimStart.
Qed.

Lemma trimStart_startsClean (s : jsstring) : startsClean (trimStart s).
Proof.
  induction s as [|c s IH]; simpl; [exact I|].
  destruct (isWhiteSpace c) eqn:E; [exact IH|exact E].
Qed.

Lemma trimStart_clean (s : jsstring) : startsClean s -> trimStart s = s.
Proof. destruct s as [|c s]; simpl; [reflexivity|]. intros ->. reflexivity. Qed.

(** [trim] is idempotent. *)
Lemma trim_trim (s : jsstring) : trim (trim s) = trim s.
Proof.
  unfold trim, trimEnd.
  set (t := trimStart s). set (u := trimStart (rev t)).
  assert (Hu : startsClean u) by apply trimStart_startsClean.
  assert (Hr : startsClean (rev u)).
  { destruct (trimStart_suffix (rev t)) as (w & _ & E). fold u in E.
    apply (f_equal (@rev codeUnit)) in E.
    rewrite rev_involutive, rev_app_distr in E.
    pose proof (trimStart_startsClean s) as Ht. fold t in Ht.
    destruct (rev u) as [|c r]; [exact I|].
    rewrite E in Ht. exact Ht. }
  rewrite (trimStart_clean _ Hr), rev_involutive, (trimStart_clean _ Hu).
  reflexivity.
Qed.

Lemma whiteMatcher_blankLines : whiteMatcher blankLines.
Proof. intros prev s n. apply blankLines_bound. Qed.

Lemma whiteMatcher_whitespaceRun : whiteMatcher whitespaceRun.
Proof.
  intros prev s n. unfold whitespaceRun. destruct s as [|c s]; [discriminate|].
  destruct (isWhiteSpace c); [|discriminate].
  intros H. injection H as <-. apply Nat.le_refl.
Qed.

Lemma whiteMatcher_sentenceGap : whiteMatcher sentenceGap.
Proof.
  intros prev s n. unfold sentenceGap. destruct prev as [p|]; [|discriminate].
  destruct (isSentenceEnd p); [|discriminate].
  apply whiteMatcher_whitespaceRun.
Qed.

(** A split drops white space only. *)
Lemma nonWhite_concat_regexSplit (m : matcher) (s : jsstring) :
  whiteMatcher m ->
  forall prev skip, (skip <= runLength isWhiteSpace s)%nat ->
    nonWhite (concat (regexSplit m prev skip s)) = nonWhite s.
Proof.
  intros Hm. induction s as [|c s IH]; intros prev skip H; [reflexivity|].
  cbn [regexSplit]. destruct skip as [|k].
  - destruct (m prev (c :: s)) as [[|k]|] eqn:E.
    + rewrite concat_pushFront by apply regexSplit_not_nil.
      simpl. rewrite IH by lia. reflexivity.
    + apply Hm in E. simpl in E.
      destruct (isWhiteSpace c) eqn:Hc; [|lia].
      simpl. rewrite Hc. simpl. apply IH. lia.
    + rewrite concat_pushFront by apply regexSplit_not_nil.
      simpl. rewrite IH by lia. reflexivity.
  - simpl in H. destruct (isWhiteSpace c) eqn:Hc; [|lia].
    simpl. rewrite Hc. simpl. apply IH. lia.
Qed.

Section Preservation.

Variable encode : tokenizer.
Variables chunkSize overlap : Z.

(** How the text already read relates to the text already written: [Rel]
    is kept when both grow by the same text, also when an overlap text is
    written in between. *)
Variable Rel : jsstring -> jsstring -> Prop.
Hypothesis Rel_nil : Rel [] [].
Hypothesis Rel_grow :
  forall p o x cc,
    Rel p o ->
    Rel (p ++ x) (o ++ x)
    /\ Rel (p ++ x)
         (o ++ nonWhite (getOverlapText encode cc overlap) ++ x).

Lemma nonWhite_concat_snoc (cs : list jsstring) (c : jsstring) :
  nonWhite (concat (cs ++ [c])) = nonWhite (concat cs) ++ nonWhite c.
Proof. rewrite concat_app, nonWhite_app. simpl. rewrite app_nil_r. reflexivity. Qed.

Lemma nonWhite_sep (sep : jsstring) (b : bool) :
  allWhite sep = true -> nonWhite (if b then sep else []) = [].
Proof. intros H. destruct b; [apply nonWhite_allWhite; exact H|reflexivity]. Qed.

Lemma sentenceStep_written (a : accumulator) (s p : jsstring) :
  Rel p (written a) ->
  Rel (p ++ nonWhite s) (written (sentenceStep encode chunkSize overlap a s)).
Proof.
  intros H. unfold sentenceStep, written.
  destruct ((currentTokens a + countTokens encode s >? chunkSize)
            && truthy (currentChunk a)); cbn [chunks currentChunk].
  - rewrite nonWhite_concat_snoc, nonWhite_trim, nonWhite_app.
    change (nonWhite (SP :: s)) with (nonWhite s).
    apply (proj2 (Rel_grow (nonWhite s) (currentChunk a) H)).
  - rewrite !nonWhite_app, (@nonWhite_sep [SP]) by reflexivity.
    rewrite app_nil_l, app_assoc.
    apply (proj1 (Rel_grow (nonWhite s) [] H)).
Qed.

Lemma fold_sentences_written (ss : list jsstring) :
  forall a p,
    Rel p (written a) ->
    Rel (p ++ nonWhite (concat ss))
      (written (fold_left (sentenceStep encode chunkSize overlap) ss a)).
Proof.
  induction ss as [|s ss IH]; intros a p H.
  - simpl. rewrite app_nil_r. exact H.
  - cbn [fold_left concat]. rewrite nonWhite_app, app_assoc.
    apply IH, sentenceStep_written, H.
Qed.

Lemma flushIfAny_written (a : accumulator) :
  written (flushIfAny a) = written a.
Proof.
  unfold flushIfAny, written. destruct (truthy (currentChunk a)) eqn:E;
    [|reflexivity].
  cbn [chunks currentChunk].
  rewrite nonWhite_concat_snoc, nonWhite_trim, app_nil_r. reflexivity.
Qed.

Lemma paragraphStep_written (a : accumulator) (q p : jsstring) :
  Rel p (written a) ->
  Rel (p ++ nonWhite q) (written (paragraphStep encode chunkSize overlap a q)).
Proof.
  intros H. unfold paragraphStep.
  destruct (countTokens encode q >? chunkSize).
  - rewrite <- (@nonWhite_concat_regexSplit sentenceGap q
                  whiteMatcher_sentenceGap None 0) by lia.
    apply fold_sentences_written. rewrite flushIfAny_written. exact H.
  - destruct (currentTokens a + countTokens encode q >? chunkSize);
      unfold written; cbn [chunks currentChunk].
    + rewrite nonWhite_concat_snoc, nonWhite_trim, nonWhite_app.
      change (nonWhite (LF :: LF :: q)) with (nonWhite q).
      apply (proj2 (Rel_grow (nonWhite q) (currentChunk a) H)).
    + rewrite !nonWhite_app, (@nonWhite_sep [LF; LF]) by reflexivity.
      rewrite app_nil_l, app_assoc.
      apply (proj1 (Rel_grow (nonWhite q) [] H)).
Qed.

Lemma fold_paragraphs_written (ps : list jsstring) :
  forall a p,
    Rel p (written a) ->
    Rel (p ++ nonWhite (concat ps))
      (written (fold_left (paragraphStep encode chunkSize overlap) ps a)).
Proof.
  induction ps as [|q ps IH]; intros a p H.
  - simpl. rewrite app_nil_r. exact H.
  - cbn [fold_left concat]. rewrite nonWhite_app, app_assoc.
    apply IH, paragraphStep_written, H.
Qed.

Lemma finish_written (a : accumulator) :
  nonWhite (concat (finish a)) = written a.
Proof.
  unfold finish, written. destruct (truthy (trim (currentChunk a))) eqn:E.
  - rewrite nonWhite_concat_snoc, nonWhite_trim. reflexivity.
  - apply truthy_false_iff, trim_nil_iff, nonWhite_allWhite in E.
    rewrite E, app_nil_r. reflexivity.
Qed.

Lemma chunkContent_written (content : jsstring) :
  Rel (nonWhite content)
    (nonWhite (concat (chunkContent encode content chunkSize overlap))).
Proof.
  unfold chunkContent. rewrite finish_written.
  rewrite <- (@nonWhite_concat_regexSplit blankLines content
                whiteMatcher_blankLines None 0) by lia.
  apply (fold_paragraphs_written (splitParagraphs content) emptyAccumulator
           (p := [])).
  exact Rel_nil.
Qed.

End Preservation.

Lemma subseq_not_nil {A : Type} (l1 l2 : list A) :
  subseq l1 l2 -> l1 <> [] -> l2 <> [].
Proof.
  intros H Hne E. apply subseq_length in H. rewrite E in H.
  destruct l1; [congruence|simpl in H; lia].
Qed.

Lemma concat_not_nil (l : list jsstring) :
  concat l <> [] -> exists c, In c l /\ c <> [].
Proof.
  induction l as [|c l IH]; simpl; [congruence|].
  destruct c as [|x c].
  - intros H. destruct (IH H) as (d & Hd & Hne). exists d. auto.
  - intros _. exists (x :: c). split; [auto|discriminate].
Qed.

Lemma white_not_sentenceEnd (c : codeUnit) :
  isWhiteSpace c = true -> isSentenceEnd c = false.
Proof.
  unfold isSentenceEnd. intros H.
  destruct (c =? 46)%N eqn:E1; [apply N.eqb_eq in E1; subst; discriminate|].
  destruct (c =? 33)%N eqn:E2; [apply N.eqb_eq in E2; subst; discriminate|].
  destruct (c =? 63)%N eqn:E3; [apply N.eqb_eq in E3; subst; discriminate|].
  reflexivity.
Qed.

Lemma allWhite_no_sentenceGap (s : jsstring) :
  forall prev,
    allWhite s = true ->
    match prev with Some p => isSentenceEnd p = false | None => True end ->
    hasSentenceGap prev s = false.
Proof.
  induction s as [|c s IH]; intros prev H Hp; [reflexivity|].
  simpl in H. apply andb_true_iff in H as [Hc Hs].
  cbn [hasSentenceGap]. rewrite (IH (Some c) Hs (white_not_sentenceEnd _ Hc)).
  destruct prev as [p|]; [rewrite Hp|]; reflexivity.
Qed.

Lemma mapIndexed_seq {A B : Type} (d : A) (f : A -> nat -> B) (l : list A) :
  forall s,
    mapIndexed f s l =
    map (fun i => f (nth (i - s) l d) i) (seq s (length l)).
Proof.
  induction l as [|x l IH]; intros s; [reflexivity|].
  cbn [mapIndexed length seq map]. rewrite Nat.sub_diag. f_equal.
  rewrite IH. apply map_ext_in. intros i Hi. apply in_seq in Hi.
  replace (i - s)%nat with (S (i - S s)) by lia. reflexivity.
Qed.

Arguments chunkIdString : simpl never.

Section EngineFacts.

Variable encode : tokenizer.
Variables chunkSize overlap : Z.

Lemma sentenceStep_trimmed (a : accumulator) (s : jsstring) :
  Forall (fun c => trim c = c) (chunks a) ->
  Forall (fun c => trim c = c)
    (chunks (sentenceStep encode chunkSize overlap a s)).
Proof.
  intros H. unfold sentenceStep.
  destruct ((currentTokens a + countTokens encode s >? chunkSize)
            && truthy (currentChunk a)); cbn [chunks]; [|exact H].
  apply Forall_app. split; [exact H|]. repeat constructor. apply trim_trim.
Qed.

Lemma fold_sentences_trimmed (ss : list jsstring) :
  forall a,
    Forall (fun c => trim c = c) (chunks a) ->
    Forall (fun c => trim c = c)
      (chunks (fold_left (sentenceStep encode chunkSize overlap) ss a)).
Proof.
  induction ss as [|s ss IH]; intros a H; [exact H|].
  apply IH, sentenceStep_trimmed, H.
Qed.

Lemma paragraphStep_trimmed (a : accumulator) (p : jsstring) :
  Forall (fun c => trim c = c) (chunks a) ->
  Forall (fun c => trim c = c)
    (chunks (paragraphStep encode chunkSize overlap a p)).
Proof.
  intros H. unfold paragraphStep.
  destruct (countTokens encode p >? chunkSize).
  - apply fold_sentences_trimmed. unfold flushIfAny.
    destruct (truthy (currentChunk a)); cbn [chunks]; [|exact H].
    apply Forall_app. split; [exact H|]. repeat constructor. apply trim_trim.
  - destruct (currentTokens a + countTokens encode p >? chunkSize);
      cbn [chunks]; [|exact H].
    apply Forall_app. split; [exact H|]. repeat constructor. apply trim_trim.
Qed.

Lemma fold_paragraphs_trimmed (ps : list jsstring) :
  forall a,
    Forall (fun c => trim c = c) (chunks a) ->
    Forall (fun c => trim c = c)
      (chunks (fold_left (paragraphStep encode chunkSize overlap) ps a)).
Proof.
  induction ps as [|p ps IH]; intros a H; [exact H|].
  apply IH, paragraphStep_trimmed, H.
Qed.

(** X1: every chunk that [chunkContent] returns is trimmed: it is its own
    [trim], so it neither starts nor ends with white space, whatever the
    content, the tokenizer, the chunk size and the overlap. *)
Theorem chunkContent_trimmed (content : jsstring) :
  Forall (fun c => trim c = c)
    (chunkContent encode content chunkSize overlap).
Proof.
  unfold chunkContent, finish.
  pose proof (fold_paragraphs_trimmed (splitParagraphs content)
                emptyAccumulator (Forall_nil _)) as H.
  destruct (truthy _); [|exact H].
  apply Forall_app. split; [exact H|]. repeat constructor. apply trim_trim.
Qed.

Lemma chunkContent_subseq (content : jsstring) :
  subseq (nonWhite content)
    (nonWhite (concat (chunkContent encode content chunkSize overlap))).
Proof.
  apply (@chunkContent_written encode chunkSize overlap (@subseq codeUnit));
    [constructor|].
  intros p o x cc H. split.
  - apply subseq_app; [exact H|apply subseq_refl].
  - apply subseq_insert. exact H.
Qed.

(** X2: [chunkContent] loses no text: the code units of the content that
    are not white space are found again, in their order, in the chunks read
    one after the other (the chunks may repeat some as overlap); with an
    overlap of zero or less the chunks hold exactly these code units, none
    lost, none repeated, none added. *)
Theorem chunkContent_keeps_text (content : jsstring) :
  subseq (nonWhite content)
    (nonWhite (concat (chunkContent encode content chunkSize overlap)))
  /\ (overlap <= 0 ->
      nonWhite (concat (chunkContent encode content chunkSize overlap)) =
      nonWhite content).
Proof.
  split; [apply chunkContent_subseq|].
  intros Hov. symmetry.
  apply (@chunkContent_written encode chunkSize overlap (@eq jsstring));
    [reflexivity|].
  intros p o x cc ->. split; [reflexivity|].
  unfold getOverlapText. apply Z.leb_le in Hov. rewrite Hov. reflexivity.
Qed.

(** X3: a content that is not blank always gives a chunk that is not
    empty. *)
Theorem chunkContent_not_empty (content : jsstring) :
  trim content <> [] ->
  exists c, In c (chunkContent encode content chunkSize overlap) /\ c <> [].
Proof.
  intros Hne. apply concat_not_nil.
  assert (Hnw : nonWhite content <> []).
  { intros E. apply Hne, trim_nil_iff, nonWhite_nil_iff, E. }
  pose proof (subseq_not_nil (chunkContent_subseq content) Hnw) as Ho.
  intros E. apply Ho. rewrite E. reflexivity.
Qed.

(** X4: a blank content (white space only) gives no chunk when it is one
    paragraph, and when the token counts of its paragraphs sum to
    [chunkSize] at most. *)
Theorem chunkContent_blank (content : jsstring) :
  allWhite content = true ->
  hasBlankLine content = false
  \/ totalTokens encode (splitParagraphs content) <= chunkSize ->
  chunkContent encode content chunkSize overlap = [].
Proof.
  intros Hw [Hone|Hfit].
  - assert (Ht : trim content = []) by (apply trim_nil_iff; exact Hw).
    unfold chunkContent. rewrite splitParagraphs_single by exact Hone.
    cbn [fold_left]. unfold paragraphStep, emptyAccumulator.
    cbn [currentTokens currentChunk chunks Z.add].
    destruct (countTokens encode content >? chunkSize) eqn:E.
    + rewrite splitSentences_single
        by (apply allWhite_no_sentenceGap; [exact Hw|exact I]).
      unfold flushIfAny, sentenceStep, finish. simpl.
      rewrite andb_false_r. simpl. rewrite Ht. reflexivity.
    + unfold finish. simpl. rewrite Ht. reflexivity.
  - unfold chunkContent.
    rewrite fold_paragraphs_fit by first [exact Hfit | simpl; lia].
    unfold finish. cbn [chunks currentChunk emptyAccumulator].
    rewrite trim_accumulated_paragraphs.
    assert (Ht : trim (join [LF; LF] (splitParagraphs content)) = []).
    { apply trim_nil_iff. rewrite allWhite_join_splitParagraphs. exact Hw. }
    rewrite Ht. reflexivity.
Qed.

(** X5: [chunkText] with a chunk size that is not zero gives the chunks
    that [chunkPages] gives for the one page made of the text, with no
    url, no title and no heading, under the same chunk size and overlap:
    same ids, contents, token counts and metadata. *)
Theorem chunkText_as_one_page (text : jsstring) (format : jsstring)
    (other : option jsstring) :
  chunkSize <> 0 ->
  chunkText encode text
    {| partial_chunkSize := Some chunkSize;
       partial_chunkOverlap := Some overlap;
       partial_outputFormat := other |} =
  chunkPages encode [anonymousPage text]
    (Build_ChunkOptions chunkSize overlap format).
Proof.
  intros Hne. rewrite chunkPages_assemble.
  unfold chunkText, orDefault. cbn.
  destruct (chunkSize =? 0) eqn:E; [apply Z.eqb_eq in E; congruence|].
  rewrite app_nil_r. unfold pageChunks. cbn [page_content anonymousPage].
  rewrite (@mapIndexed_seq jsstring Chunk [] _ _ 0). apply map_ext. intros i.
  rewrite Nat.sub_0_r. reflexivity.
Qed.

End EngineFacts.

Lemma chunkContent_not_empty_witness :
  exists c, In c (chunkContent unitTokenizer text_two_paragraphs 5 3) /\ c <> [].
Proof.
  apply (@chunkContent_not_empty unitTokenizer 5 3 text_two_paragraphs).
  vm_compute. discriminate.
Defined.

Lemma chunkContent_blank_witness :
  chunkContent unitTokenizer text_blank 1 0 = []
  /\ chunkContent unitTokenizer text_blank_paragraphs 500 0 = [].
Proof.
  split.
  - apply (@chunkContent_blank unitTokenizer 1 0 text_blank);
      [reflexivity|left; reflexivity].
  - apply (@chunkContent_blank unitTokenizer 500 0 text_blank_paragraphs);
      [reflexivity|right; vm_compute; discriminate].
Defined.

Lemma chunkText_as_one_page_witness :
  chunkText unitTokenizer text_three_paragraphs
    {| partial_chunkSize := Some 10;
       partial_chunkOverlap := Some 0;
       partial_outputFormat := None |} =
  chunkPages unitTokenizer [anonymousPage text_three_paragraphs]
    {| chunkSize := 10; chunkOverlap := 0; outputFormat := str "rag" |}.
Proof.
  apply (@chunkText_as_one_page unitTokenizer 10 0 text_three_paragraphs
           (str "rag") None).
  discriminate.
Defined.

(* ------------------------------------------------------------------ *)
(** ** Fine-tuning formats *)

Section FormatFacts.

Variable number : Type.

Local Abbreviation chunk := (EmbeddedChunk number).

Lemma fold_push_map {A B : Type} (f : A -> B) (l : list A) :
  forall acc, fold_left (fun rs x => rs ++ [f x]) l acc = acc ++ map f l.
Proof.
  induction l as [|x l IH]; intros acc; simpl.
  - rewrite app_nil_r. reflexivity.
  - rewrite IH, <- app_assoc. reflexivity.
Qed.

Lemma fold_push_flat_map {A B : Type} (f : A -> list B) (l : list A) :
  forall acc, fold_left (fun rs x => rs ++ f x) l acc = acc ++ flat_map f l.
Proof.
  induction l as [|x l IH]; intros acc; simpl.
  - rewrite app_nil_r. reflexivity.
  - rewrite IH, <- app_assoc. reflexivity.
Qed.

Lemma openAIStep_pairs (cfg : EnrichmentConfig) (rs : list OpenAIFineTuneOutput)
    (c : chunk) :
  openAIStep cfg rs c =
  rs ++ map (fun qa => openAIRecord (fst qa) (snd qa)) (trainingPairs cfg c).
Proof.
  unfold openAIStep, trainingPairs.
  destruct (questionsToUse cfg c) as [qs|]; [|reflexivity].
  rewrite fold_push_map, map_map. reflexivity.
Qed.

Lemma alpacaStep_pairs (cfg : EnrichmentConfig) (rs : list AlpacaFineTuneOutput)
    (c : chunk) :
  alpacaStep cfg rs c =
  rs ++ map (fun qa => alpacaRecord (fst qa) (snd qa)) (trainingPairs cfg c).
Proof.
  unfold alpacaStep, trainingPairs.
  destruct (questionsToUse cfg c) as [qs|]; [|reflexivity].
  rewrite fold_push_map, map_map. reflexivity.
Qed.

Lemma fold_left_append {A B : Type} (step : list B -> A -> list B)
    (g : A -> list B) :
  (forall rs x, step rs x = rs ++ g x) ->
  forall l acc, fold_left step l acc = acc ++ flat_map g l.
Proof.
  intros H. induction l as [|x l IH]; intros acc; simpl.
  - rewrite app_nil_r. reflexivity.
  - rewrite IH, H, <- app_assoc. reflexivity.
Qed.

Lemma flat_map_map {A B C : Type} (f : B -> C) (g : A -> list B) (l : list A) :
  flat_map (fun x => map f (g x)) l = map f (flat_map g l).
Proof.
  induction l as [|x l IH]; simpl; [reflexivity|].
  rewrite map_app, IH. reflexivity.
Qed.

Lemma generateOpenAIFormat_pairs (chunks : list chunk) (cfg : EnrichmentConfig) :
  generateOpenAIFormat chunks cfg =
  map (fun qa => openAIRecord (fst qa) (snd qa))
    (flat_map (trainingPairs cfg) chunks).
Proof.
  unfold generateOpenAIFormat.
  rewrite (fold_left_append _ _ (openAIStep_pairs cfg)).
  apply flat_map_map.
Qed.

Lemma generateAlpacaFormat_pairs (chunks : list chunk) (cfg : EnrichmentConfig) :
  generateAlpacaFormat chunks cfg =
  map (fun qa => alpacaRecord (fst qa) (snd qa))
    (flat_map (trainingPairs cfg) chunks).
Proof.
  unfold generateAlpacaFormat.
  rewrite (fold_left_append _ _ (alpacaStep_pairs cfg)).
  apply flat_map_map.
Qed.

(** X6: the two fine-tuning formats say the same thing: the records of
    [generateOpenAIFormat] and of [generateAlpacaFormat] correspond one to
    one, in order; the user message is the instruction, the assistant
    message is the output, and every OpenAI record starts with the same
    system message. *)
Theorem finetune_formats_correspond (chunks : list chunk)
    (cfg : EnrichmentConfig) :
  map alpacaOfOpenAI (generateOpenAIFormat chunks cfg) =
  generateAlpacaFormat chunks cfg
  /\ Forall (fun r =>
       exists user assistant,
         messages r =
         [ {| role := str "system";
              message_content := str "You are a helpful assistant." |};
           {| role := str "user"; message_content := user |};
           {| role := str "assistant"; message_content := assistant |} ])
       (generateOpenAIFormat chunks cfg)
  /\ Forall (fun r => input r = []) (generateAlpacaFormat chunks cfg).
Proof.
  rewrite generateOpenAIFormat_pairs, generateAlpacaFormat_pairs.
  split; [|split].
  - rewrite map_map. reflexivity.
  - apply Forall_forall. intros r Hr.
    apply in_map_iff in Hr as (qa & <- & _). eexists. eexists. reflexivity.
  - apply Forall_forall. intros r Hr.
    apply in_map_iff in Hr as (qa & <- & _). reflexivity.
Qed.

(** X7: when enrichment is not enabled, or no chunk has a list of
    questions, both fine-tuning formats hold exactly one record for each
    chunk, in the order of the chunks: the question is ["Explain: "]
    followed by the title of the page, the answer is the content of the
    chunk. *)
Theorem finetune_without_questions (chunks : list chunk)
    (cfg : EnrichmentConfig) :
  enabled cfg = false
  \/ (forall c, In c chunks ->
        forall e, enrichment c = Some e -> questions e = None) ->
  generateAlpacaFormat chunks cfg =
  map (fun c => alpacaRecord (explainTitle c) (content (base c))) chunks
  /\ generateOpenAIFormat chunks cfg =
     map (fun c => openAIRecord (explainTitle c) (content (base c))) chunks.
Proof.
  intros H.
  assert (Hq : forall c, In c chunks -> questionsToUse cfg c = None).
  { intros c Hc. unfold questionsToUse. destruct H as [->|H]; [reflexivity|].
    destruct (enabled cfg); [|reflexivity].
    destruct (enrichment c) as [e|] eqn:E; [|reflexivity].
    apply (H c Hc e E). }
  assert (Hp : flat_map (trainingPairs cfg) chunks =
               map (fun c => (explainTitle c, content (base c))) chunks).
  { clear H. induction chunks as [|c cs IH]; [reflexivity|].
    cbn [flat_map map]. rewrite IH by (intros d Hd; apply Hq; right; exact Hd).
    unfold trainingPairs. rewrite (Hq c (or_introl eq_refl)). reflexivity. }
  rewrite generateAlpacaFormat_pairs, generateOpenAIFormat_pairs, Hp, !map_map.
  split; reflexivity.
Qed.

(** X8: every record of [generateAlpacaFormat] answers with the content of
    a chunk, to the ["Explain: "] question of that chunk or to one of its
    questions; every chunk gives its content to a record at least, except
    a chunk that is used with an empty list of questions: that chunk gives
    no record at all. *)
Theorem finetune_records_and_chunks (chunks : list chunk)
    (cfg : EnrichmentConfig) :
  (forall r, In r (generateAlpacaFormat chunks cfg) ->
     exists c,
       In c chunks
       /\ output r = content (base c)
       /\ match questionsToUse cfg c with
          | Some qs => In (instruction r) qs
          | None => instruction r = explainTitle c
          end)
  /\ (forall c, In c chunks ->
        questionsToUse cfg c <> Some [] ->
        exists r,
          In r (generateAlpacaFormat chunks cfg)
          /\ output r = content (base c))
  /\ ((forall c, In c chunks -> questionsToUse cfg c = Some []) ->
      generateAlpacaFormat chunks cfg = []
      /\ generateOpenAIFormat chunks cfg = []).
Proof.
  rewrite generateAlpacaFormat_pairs, generateOpenAIFormat_pairs.
  split; [|split].
  - intros r Hr. apply in_map_iff in Hr as (qa & <- & Hqa).
    apply in_flat_map in Hqa as (c & Hc & Hqa). exists c.
    split; [exact Hc|]. unfold trainingPairs in Hqa.
    destruct (questionsToUse cfg c) as [qs|].
    + apply in_map_iff in Hqa as (q & <- & Hq). split; [reflexivity|exact Hq].
    + destruct Hqa as [<-|[]]. split; reflexivity.
  - intros c Hc Hne.
    assert (Hex : exists qa, In qa (trainingPairs cfg c)
                             /\ snd qa = content (base c)).
    { unfold trainingPairs. destruct (questionsToUse cfg c) as [[|q qs]|].
      - congruence.
      - exists (q, content (base c)). split; [left; reflexivity|reflexivity].
      - eexists. split; [left; reflexivity|reflexivity]. }
    destruct Hex as (qa & Hqa & E).
    exists (alpacaRecord (fst qa) (snd qa)). split; [|exact E].
    apply (in_map (fun x => alpacaRecord (fst x) (snd x))).
    apply in_flat_map. exists c. auto.
  - intros Hall.
    assert (Hp : flat_map (trainingPairs cfg) chunks = []).
    { induction chunks as [|c cs IH]; [reflexivity|].
      cbn [flat_map]. rewrite IH by (intros d Hd; apply Hall; right; exact Hd).
      unfold trainingPairs. rewrite (Hall c (or_introl eq_refl)). reflexivity. }
    rewrite Hp. split; reflexivity.
Qed.

End FormatFacts.

Lemma finetune_without_questions_witness :
  generateAlpacaFormat sample_chunks enrichment_on =
  map (fun c => alpacaRecord (explainTitle c) (content (base c))) sample_chunks
  /\ generateOpenAIFormat sample_chunks enrichment_on =
     map (fun c => openAIRecord (explainTitle c) (content (base c)))
       sample_chunks.
Proof.
  apply (@finetune_without_questions Z sample_chunks enrichment_on).
  right. intros c Hc e He. unfold sample_chunks in Hc.
  apply in_map_iff in Hc as (x & <- & _). discriminate He.
Defined.

(* ------------------------------------------------------------------ *)
(** ** The Markdown document *)

Lemma strEq_true_iff (a b : jsstring) : strEq a b = true <-> a = b.
Proof. unfold strEq. destruct (jsstring_eq_dec a b); split; congruence. Qed.

Lemma strEq_false_iff (a b : jsstring) : strEq a b = false <-> a <> b.
Proof. unfold strEq. destruct (jsstring_eq_dec a b); split; congruence. Qed.

Lemma strEq_refl (a : jsstring) : strEq a a = true.
Proof. apply strEq_true_iff. reflexivity. Qed.

Lemma existsb_strEq_iff (u : jsstring) (l : list jsstring) :
  existsb (strEq u) l = true <-> In u l.
Proof.
  rewrite existsb_exists. split.
  - intros (x & Hx & E). apply strEq_true_iff in E. subst. exact Hx.
  - intros H. exists u. split; [exact H|apply strEq_refl].
Qed.

Lemma firstUrls_snoc (us : list jsstring) (u : jsstring) :
  firstUrls (us ++ [u]) =
  if existsb (strEq u) (firstUrls us) then firstUrls us
  else firstUrls us ++ [u].
Proof. unfold firstUrls. rewrite fold_left_app. reflexivity. Qed.

Lemma firstUrls_spec (us : list jsstring) :
  NoDup (firstUrls us) /\ forall u, In u (firstUrls us) <-> In u us.
Proof.
  induction us as [|u us [Hnd Hin]] using rev_ind.
  - split; [constructor|]. intros u. reflexivity.
  - rewrite firstUrls_snoc.
    destruct (existsb (strEq u) (firstUrls us)) eqn:E.
    + split; [exact Hnd|]. intros v. rewrite Hin, in_app_iff. simpl.
      apply existsb_strEq_iff, Hin in E.
      split; [auto|]. intros [H|[<-|[]]]; assumption.
    + assert (Hu : ~ In u (firstUrls us)).
      { intros H. apply existsb_strEq_iff in H. congruence. }
      split.
      * apply NoDup_app; [exact Hnd|repeat constructor; simpl; tauto|].
        intros x Hx [<-|[]]. exact (Hu Hx).
      * intros v. rewrite !in_app_iff, Hin. reflexivity.
Qed.

Section MarkdownFacts.

Variable number : Type.

Local Abbreviation chunk := (EmbeddedChunk number).

Lemma groupChunks_snoc (chunks : list chunk) (c : chunk) :
  groupChunks (chunks ++ [c]) = groupPush (urlOf c) c (groupChunks chunks).
Proof. unfold groupChunks. rewrite fold_left_app. reflexivity. Qed.

Lemma chunksOfUrl_snoc (u : jsstring) (chunks : list chunk) (c : chunk) :
  chunksOfUrl u (chunks ++ [c]) =
  chunksOfUrl u chunks ++ (if strEq (urlOf c) u then [c] else []).
Proof. unfold chunksOfUrl. rewrite filter_app. reflexivity. Qed.

(** Pushing a chunk into groups that are listed by key. *)
Lemma groupPush_keys (u : jsstring) (c : chunk) (F : jsstring -> list chunk)
    (keys : list jsstring) :
  NoDup keys ->
  groupPush u c (map (fun v => (v, F v)) keys) =
  if existsb (strEq u) keys
  then map (fun v => (v, F v ++ (if strEq u v then [c] else []))) keys
  else map (fun v => (v, F v ++ (if strEq u v then [c] else []))) keys
       ++ [(u, [c])].
Proof.
  induction 1 as [|k keys Hk Hnd IH]; [reflexivity|].
  cbn [map groupPush existsb].
  destruct (strEq k u) eqn:E.
  - apply strEq_true_iff in E. subst k. rewrite strEq_refl. cbn [orb].
    f_equal. apply map_ext_in. intros v Hv.
    assert (Hne : strEq u v = false).
    { apply strEq_false_iff. intros ->. exact (Hk Hv). }
    rewrite Hne, app_nil_r. reflexivity.
  - assert (E' : strEq u k = false).
    { apply strEq_false_iff. apply strEq_false_iff in E. congruence. }
    rewrite E', IH, app_nil_r. cbn [orb].
    destruct (existsb (strEq u) keys); reflexivity.
Qed.

Lemma chunksOfUrl_none (u : jsstring) (chunks : list chunk) :
  ~ In u (map urlOf chunks) -> chunksOfUrl u chunks = [].
Proof.
  unfold chunksOfUrl. induction chunks as [|d ds IH]; [reflexivity|].
  simpl. intros H.
  destruct (strEq (urlOf d) u) eqn:E.
  - apply strEq_true_iff in E. tauto.
  - apply IH. tauto.
Qed.

(** The groups in closed form: a group for each url, in the order of the
    first occurrences, with the chunks of that url in their order. *)
Lemma groupChunks_closed (chunks : list chunk) :
  groupChunks chunks =
  map (fun u => (u, chunksOfUrl u chunks)) (firstUrls (map urlOf chunks)).
Proof.
  induction chunks as [|c chunks IH] using rev_ind; [reflexivity|].
  rewrite groupChunks_snoc, IH, map_app. cbn [map]. rewrite firstUrls_snoc.
  destruct (firstUrls_spec (map urlOf chunks)) as [Hnd Hin].
  rewrite (groupPush_keys _ _ _ Hnd).
  assert (Hext : forall keys,
             map (fun v => (v, chunksOfUrl v chunks
                               ++ (if strEq (urlOf c) v then [c] else [])))
               keys =
             map (fun u => (u, chunksOfUrl u (chunks ++ [c]))) keys).
  { intros keys. apply map_ext. intros v. rewrite chunksOfUrl_snoc.
    reflexivity. }
  destruct (existsb (strEq (urlOf c)) (firstUrls (map urlOf chunks))) eqn:E.
  - apply Hext.
  - rewrite map_app, Hext. cbn [map]. f_equal. f_equal. f_equal.
    rewrite chunksOfUrl_snoc, strEq_refl, chunksOfUrl_none; [reflexivity|].
    intros H. apply Hin, existsb_strEq_iff in H. congruence.
Qed.

Lemma markdownLines_flat_map (chunks : list chunk) (cfg : EnrichmentConfig) :
  markdownLines chunks cfg = flat_map (pageLines cfg) (groupChunks chunks).
Proof.
  unfold markdownLines.
  rewrite (fold_left_append _ (pageLines cfg)); [reflexivity|].
  intros rs x. reflexivity.
Qed.

(** X9: the Markdown document has one section for each source url, in the
    order in which the urls first occur among the chunks, and the section
    of a url is made from exactly the chunks of that url. *)
Theorem markdown_sections (chunks : list chunk) (cfg : EnrichmentConfig) :
  markdownLines chunks cfg =
  flat_map (fun u => pageLines cfg (u, chunksOfUrl u chunks))
    (firstUrls (map urlOf chunks))
  /\ NoDup (firstUrls (map urlOf chunks))
  /\ (forall u,
        In u (firstUrls (map urlOf chunks)) <->
        exists c, In c chunks /\ urlOf c = u)
  /\ (forall u,
        In u (firstUrls (map urlOf chunks)) -> chunksOfUrl u chunks <> []).
Proof.
  destruct (firstUrls_spec (map urlOf chunks)) as [Hnd Hin].
  assert (Hex : forall u,
             In u (firstUrls (map urlOf chunks)) <->
             exists c, In c chunks /\ urlOf c = u).
  { intros u. rewrite Hin, in_map_iff. split; intros (c & H1 & H2); eauto. }
  split; [|split; [exact Hnd|split; [exact Hex|]]].
  - rewrite markdownLines_flat_map, groupChunks_closed, flat_map_concat_map,
      map_map, <- flat_map_concat_map. reflexivity.
  - intros u Hu E. apply Hex in Hu as (c & Hc & <-).
    assert (Hf : In c (chunksOfUrl (urlOf c) chunks)).
    { apply filter_In. split; [exact Hc|apply strEq_refl]. }
    rewrite E in Hf. exact Hf.
Qed.

Lemma insertByIndex_perm (c : chunk) (l : list chunk) :
  Permutation (insertByIndex c l) (c :: l).
Proof.
  induction l as [|d l IH]; simpl; [reflexivity|].
  destruct (_ <=? _)%nat; [reflexivity|].
  rewrite IH. apply perm_swap.
Qed.

Lemma sortByIndex_perm (l : list chunk) : Permutation (sortByIndex l) l.
Proof.
  induction l as [|c l IH]; simpl; [reflexivity|].
  rewrite insertByIndex_perm, IH. reflexivity.
Qed.

Lemma insertByIndex_sorted (c : chunk) (l : list chunk) :
  sortedByIndex l -> sortedByIndex (insertByIndex c l).
Proof.
  unfold sortedByIndex. induction 1 as [|d l Hs IH Hd]; simpl.
  - repeat constructor.
  - destruct (_ <=? _)%nat eqn:E.
    + apply Nat.leb_le in E. constructor; [constructor; assumption|].
      constructor; [exact E|].
      eapply Forall_impl; [|exact Hd]. simpl. intros a Ha. lia.
    + apply Nat.leb_gt in E. constructor; [exact IH|].
      eapply Permutation_Forall; [symmetry; apply insertByIndex_perm|].
      constructor; [lia|exact Hd].
Qed.

Lemma sortByIndex_sorted (l : list chunk) : sortedByIndex (sortByIndex l).
Proof.
  induction l as [|c l IH]; simpl; [constructor|].
  apply insertByIndex_sorted, IH.
Qed.

(** A list that is in order already is left as it is. *)
Lemma sortByIndex_id (l : list chunk) : sortedByIndex l -> sortByIndex l = l.
Proof.
  unfold sortedByIndex. induction 1 as [|c l Hs IH Hc]; [reflexivity|].
  simpl. rewrite IH. destruct l as [|d l]; [reflexivity|].
  simpl. inversion Hc as [|? ? Hd _]; subst.
  apply Nat.leb_le in Hd. rewrite Hd. reflexivity.
Qed.

Lemma groupPush_perm (u : jsstring) (c : chunk) (G : pageGroups number) :
  Permutation (flat_map snd (groupPush u c G)) (c :: flat_map snd G).
Proof.
  induction G as [|[v cs] G IH]; simpl; [reflexivity|].
  destruct (strEq v u); simpl.
  - rewrite <- app_assoc. symmetry. apply Permutation_middle.
  - rewrite IH. symmetry. apply Permutation_middle.
Qed.

Lemma groupChunks_perm (chunks : list chunk) :
  Permutation (flat_map snd (groupChunks chunks)) chunks.
Proof.
  induction chunks as [|c chunks IH] using rev_ind; [reflexivity|].
  rewrite groupChunks_snoc, groupPush_perm, IH.
  apply Permutation_cons_append.
Qed.

Lemma documentChunks_perm (chunks : list chunk) :
  Permutation (documentChunks chunks) chunks.
Proof.
  unfold documentChunks. rewrite <- (groupChunks_perm chunks) at 2.
  induction (groupChunks chunks) as [|g G IH]; simpl; [reflexivity|].
  rewrite IH, sortByIndex_perm. reflexivity.
Qed.

Lemma flat_map_of_map {A B C : Type} (f : B -> list C) (g : A -> B)
    (l : list A) :
  flat_map f (map g l) = flat_map (fun x => f (g x)) l.
Proof.
  induction l as [|x l IH]; [reflexivity|].
  cbn [map flat_map]. rewrite IH. reflexivity.
Qed.

(** X10: the lines of the Markdown document, section by section.  There is
    one section for each source url, in the order of the first occurrences
    of the urls; the chunks of a section are the chunks of its url, in
    ascending order of [chunk_index]; all the sections together hold every
    chunk exactly once.  The lines of a section are its heading (the title
    of its first chunk, or ['Untitled']), an empty line, the source line,
    an empty line, then for each of its chunks in that order the content,
    an empty line and the lines of the enrichment (none when enrichment is
    off or the chunk has none), and last the separator and an empty line.
    The document is these lines joined by line feeds. *)
Theorem markdown_shows_every_chunk (chunks : list chunk)
    (cfg : EnrichmentConfig) :
  exists (sections : list (jsstring * list chunk))
         (extra : chunk -> list jsstring),
    map fst sections = firstUrls (map urlOf chunks)
    /\ Forall (fun s =>
         Permutation (snd s) (chunksOfUrl (fst s) chunks)
         /\ sortedByIndex (snd s)
         /\ snd s <> [])
         sections
    /\ Permutation (flat_map snd sections) chunks
    /\ (forall c, enabled cfg = false \/ enrichment c = None -> extra c = [])
    /\ markdownLines chunks cfg =
       flat_map
         (fun s =>
            [ str "# "
              ++ match snd s with
                 | first :: _ =>
                     if truthy (title (metadata (base first)))
                     then title (metadata (base first))
                     else str "Untitled"
                 | [] => str "Untitled"
                 end;
              [];
              str "> **Source:** " ++ fst s;
              [] ]
            ++ flat_map (fun c => content (base c) :: [] :: extra c) (snd s)
            ++ [str "---"; []])
         sections
    /\ generateMarkdownDocument chunks cfg =
       join [LF] (markdownLines chunks cfg).
Proof.
  exists (map (fun g => (fst g, sortByIndex (snd g))) (groupChunks chunks)),
    (fun c => skipn 2 (chunkLines cfg c)).
  split; [|split; [|split; [|split; [|split]]]].
  - rewrite map_map. cbn [fst]. rewrite groupChunks_closed, map_map.
    cbn [fst]. apply map_id.
  - apply Forall_forall. intros s Hs.
    apply in_map_iff in Hs as (g & <- & Hg). cbn [fst snd].
    rewrite groupChunks_closed in Hg.
    apply in_map_iff in Hg as (u & <- & Hu). cbn [fst snd].
    split; [apply sortByIndex_perm|]. split; [apply sortByIndex_sorted|].
    intros E.
    assert (Hnil : chunksOfUrl u chunks = []).
    { apply Permutation_nil. rewrite <- E. apply sortByIndex_perm. }
    destruct (firstUrls_spec (map urlOf chunks)) as [_ Hin].
    apply Hin, in_map_iff in Hu as (c & Hc & Hcin).
    assert (Hf : In c (chunksOfUrl u chunks)).
    { apply filter_In. split; [exact Hcin|].
      rewrite Hc. apply strEq_refl. }
    rewrite Hnil in Hf. exact Hf.
  - rewrite flat_map_of_map. cbn [snd]. apply documentChunks_perm.
  - intros c H. unfold chunkLines. destruct H as [-> | ->].
    + reflexivity.
    + destruct (enabled cfg); reflexivity.
  - rewrite markdownLines_flat_map, flat_map_of_map. reflexivity.
  - reflexivity.
Qed.

End MarkdownFacts.

(* ------------------------------------------------------------------ *)
(** ** The Markdown document of the chunks of [chunkPages] *)

Section MarkdownOfPages.

Variable number : Type.
Variable encode : tokenizer.

Local Abbreviation chunk := (EmbeddedChunk number).

Local Abbreviation pushGroup :=
  (fun (groups : pageGroups number) (c : chunk) => groupPush (urlOf c) c groups).

Lemma groupPush_new (u : jsstring) (c : chunk) (G : pageGroups number) :
  ~ In u (map fst G) -> groupPush u c G = G ++ [(u, [c])].
Proof.
  induction G as [|[v cs] G IH]; simpl; intros H; [reflexivity|].
  destruct (strEq v u) eqn:E.
  - apply strEq_true_iff in E. tauto.
  - rewrite IH; [reflexivity|tauto].
Qed.

Lemma groupPush_last (u : jsstring) (c : chunk) (cs : list chunk)
    (G : pageGroups number) :
  ~ In u (map fst G) ->
  groupPush u c (G ++ [(u, cs)]) = G ++ [(u, cs ++ [c])].
Proof.
  induction G as [|[v ds] G IH]; simpl; intros H.
  - rewrite strEq_refl. reflexivity.
  - destruct (strEq v u) eqn:E.
    + apply strEq_true_iff in E. tauto.
    + rewrite IH; [reflexivity|tauto].
Qed.

Lemma fold_groupPush_same (u : jsstring) (b : list chunk) :
  forall (cs : list chunk) (G : pageGroups number),
    ~ In u (map fst G) ->
    Forall (fun c => urlOf c = u) b ->
    fold_left pushGroup b (G ++ [(u, cs)]) = G ++ [(u, cs ++ b)].
Proof.
  induction b as [|c b IH]; intros cs G HG Hb; simpl.
  - rewrite app_nil_r. reflexivity.
  - apply Forall_cons_iff in Hb as [Hc Hb'].
    rewrite Hc, (@groupPush_last u c cs G HG), (IH _ _ HG Hb'), <- app_assoc.
    reflexivity.
Qed.

(** The chunks of one url, pushed into groups that do not have the url
    yet, make one new group at the end. *)
Lemma fold_groupPush_block (u : jsstring) (b : list chunk)
    (G : pageGroups number) :
  ~ In u (map fst G) ->
  Forall (fun c => urlOf c = u) b ->
  fold_left pushGroup b G =
  match b with
  | [] => G
  | _ :: _ => G ++ [(u, b)]
  end.
Proof.
  intros HG Hb. destruct b as [|c b]; [reflexivity|].
  apply Forall_cons_iff in Hb as [Hc Hb']. cbn [fold_left].
  rewrite Hc, (@groupPush_new u c G HG), (@fold_groupPush_same u b [c] G HG Hb').
  reflexivity.
Qed.

Lemma pageChunks_sorted (size overlap : Z) (page : ExtractedPage)
    (start : nat) :
  sortedByIndex
    (map (fresh (number := number)) (pageChunks encode size overlap page start)).
Proof.
  unfold pageChunks, sortedByIndex. rewrite map_map.
  generalize (chunkContent encode (page_content page) size overlap) as texts.
  intros texts. generalize (length texts) as n. generalize 0%nat as s.
  intros s n. revert s.
  induction n as [|n IH]; intros s; cbn [seq map]; constructor.
  - apply IH.
  - apply Forall_forall. intros c Hc.
    apply in_map_iff in Hc as (i & <- & Hi). apply in_seq in Hi.
    cbn. lia.
Qed.

Lemma pageChunks_urls (size overlap : Z) (page : ExtractedPage)
    (start : nat) :
  Forall (fun c : chunk => urlOf c = url page)
    (map (fresh (number := number)) (pageChunks encode size overlap page start)).
Proof.
  apply Forall_forall. intros c Hc.
  apply in_map_iff in Hc as (d & <- & Hd).
  unfold pageChunks in Hd. apply in_map_iff in Hd as (i & <- & _).
  reflexivity.
Qed.

Lemma chunkLines_fresh (cfg : EnrichmentConfig) (block : list Chunk) :
  flat_map (chunkLines cfg) (map (fresh (number := number)) block) =
  flat_map (fun text => [text; []]) (map content block).
Proof.
  induction block as [|c block IH]; [reflexivity|].
  cbn [map flat_map]. rewrite IH. unfold chunkLines at 1.
  cbn [fresh base enrichment]. destruct (enabled cfg); reflexivity.
Qed.

(** The lines of the section of a page. *)
Local Abbreviation sectionOf size overlap :=
  (fun p : ExtractedPage =>
     match chunkContent encode (page_content p) size overlap with
     | [] => []
     | text :: texts =>
         [ str "# "
           ++ (if truthy (page_title p) then page_title p else str "Untitled");
           [];
           str "> **Source:** " ++ url p;
           [] ]
         ++ flat_map (fun t => [t; []]) (text :: texts)
         ++ [str "---"; []]
     end).

Lemma pageLines_pageChunks (cfg : EnrichmentConfig) (size overlap : Z)
    (p : ExtractedPage) (start : nat) :
  chunkContent encode (page_content p) size overlap <> [] ->
  pageLines cfg
    (url p,
     map (fresh (number := number)) (pageChunks encode size overlap p start)) =
  sectionOf size overlap p.
Proof.
  intros Hne. unfold pageLines. cbn [fst snd].
  rewrite (@sortByIndex_id number _ (pageChunks_sorted size overlap p start)).
  rewrite chunkLines_fresh.
  destruct (pageChunks_block encode size overlap p start) as (Hcontent & _).
  rewrite Hcontent. unfold pageChunks.
  destruct (chunkContent encode (page_content p) size overlap) as [|t ts];
    [congruence|].
  reflexivity.
Qed.

(** Pages with different urls: each page with a chunk gives one group, the
    groups come in the order of the pages, and each holds the chunks of its
    page in their order. *)
Lemma groups_of_pages (cfg : EnrichmentConfig) (size overlap : Z)
    (pages : list ExtractedPage) :
  forall (start : nat) (G : pageGroups number),
    NoDup (map url pages) ->
    (forall p, In p pages -> ~ In (url p) (map fst G)) ->
    exists G',
      fold_left pushGroup
        (map (fresh (number := number))
           (concat (assemble encode size overlap pages start))) G = G ++ G'
      /\ flat_map (pageLines cfg) G' =
         flat_map (sectionOf size overlap) pages.
Proof.
  induction pages as [|p pages IH]; intros start G Hnd HG.
  - exists []. cbn. rewrite app_nil_r. split; reflexivity.
  - cbn [assemble concat flat_map]. rewrite map_app, fold_left_app.
    inversion Hnd as [|? ? Hp Hnd']; subst.
    pose proof (pageChunks_urls size overlap p start) as Hu.
    assert (HpG : ~ In (url p) (map fst G)) by (apply HG; left; reflexivity).
    rewrite (@fold_groupPush_block _ _ _ HpG Hu).
    assert (Hlen : length (pageChunks encode size overlap p start) =
                   length (chunkContent encode (page_content p) size overlap)).
    { unfold pageChunks. rewrite length_map, length_seq. reflexivity. }
    destruct (chunkContent encode (page_content p) size overlap)
      as [|t ts] eqn:Et.
    + destruct (pageChunks encode size overlap p start) as [|c cs] eqn:Ec;
        [|discriminate Hlen].
      cbn [map app length]. rewrite Nat.add_0_r.
      apply (IH start G Hnd').
      intros q Hq. apply HG. right. exact Hq.
    + pose proof (@pageLines_pageChunks cfg size overlap p start) as Hlines.
      rewrite Et in Hlines. specialize (Hlines ltac:(discriminate)).
      destruct (pageChunks encode size overlap p start) as [|c cs] eqn:Ec;
        [discriminate Hlen|].
      cbn [map] in Hlines |- *.
      destruct (IH (start + length (c :: cs))%nat
                  (G ++ [(url p, fresh c :: map (fresh (number := number)) cs)])
                  Hnd')
        as (G' & Hfold & Hsections).
      { intros q Hq Hin. rewrite map_app in Hin. apply in_app_or in Hin.
        destruct Hin as [Hin|Hin].
        - apply (HG q); [right; exact Hq|exact Hin].
        - cbn in Hin. destruct Hin as [Hin|[]].
          apply Hp. rewrite Hin. apply in_map. exact Hq. }
      exists ((url p, fresh c :: map (fresh (number := number)) cs) :: G').
      split.
      * rewrite Hfold, <- app_assoc. reflexivity.
      * cbn [flat_map]. rewrite Hsections, Hlines. cbn beta.
        rewrite Et. reflexivity.
Qed.

(** X11: for pages with pairwise different urls, the Markdown document of
    the chunks of [chunkPages] is, page after page in the order of the
    pages, for each page that has a chunk: the title of the page as heading
    (['Untitled'] when it is empty), an empty line, the source line with the
    url, an empty line, then each text that [chunkContent] gives for the
    page, in that order, followed by an empty line, then the separator and
    an empty line; a page without a chunk gives no line.  The document is
    these lines joined by line feeds. *)
Theorem markdown_of_chunkPages (pages : list ExtractedPage)
    (options : ChunkOptions) (cfg : EnrichmentConfig) :
  NoDup (map url pages) ->
  let chunks :=
    map (fresh (number := number)) (chunkPages encode pages options) in
  let size :=
    orDefault (chunkSize options) (getDefaultChunkSize (outputFormat options)) in
  let document :=
    flat_map
      (fun p : ExtractedPage =>
         match chunkContent encode (page_content p) size (chunkOverlap options) with
         | [] => []
         | text :: texts =>
             [ str "# "
               ++ (if truthy (page_title p) then page_title p
                   else str "Untitled");
               [];
               str "> **Source:** " ++ url p;
               [] ]
             ++ flat_map (fun t => [t; []]) (text :: texts)
             ++ [str "---"; []]
         end)
      pages in
  markdownLines chunks cfg = document
  /\ generateMarkdownDocument chunks cfg = join [LF] document.
Proof.
  intros Hnd chunks size document.
  assert (Hlines : markdownLines chunks cfg = document).
  { subst chunks document size.
    rewrite markdownLines_flat_map, chunkPages_assemble.
    destruct (@groups_of_pages cfg
                (orDefault (chunkSize options)
                   (getDefaultChunkSize (outputFormat options)))
                (chunkOverlap options) pages 0 [] Hnd)
      as (G' & Hfold & Hsections).
    { intros p _ []. }
    unfold groupChunks.
    change (fun (groups : pageGroups number) (c : EmbeddedChunk number) =>
              groupPush (source_url (metadata (base c))) c groups)
      with pushGroup.
    rewrite Hfold. cbn [app]. exact Hsections. }
  split; [exact Hlines|].
  unfold generateMarkdownDocument. rewrite Hlines. reflexivity.
Qed.

End MarkdownOfPages.

(* ------------------------------------------------------------------ *)
(** ** Embeddings: batches, failures and what comes back *)

Lemma subseq_nil_l {A : Type} (l : list A) : subseq [] l.
Proof. induction l; constructor; assumption. Qed.

Lemma subseq_flat_map {A B : Type} (g h : A -> list B) (l : list A) :
  (forall x, subseq (g x) (h x)) -> subseq (flat_map g l) (flat_map h l).
Proof.
  intros H. induction l as [|x l IH]; simpl; [constructor|].
  apply subseq_app; [apply H|exact IH].
Qed.

(** The number of batches is the number of chunks over [BATCH_SIZE],
    rounded up. *)
Lemma batch_count_bounds (n : nat) :
  (n <= (n + (BATCH_SIZE - 1)) / BATCH_SIZE * BATCH_SIZE
   /\ (n + (BATCH_SIZE - 1)) / BATCH_SIZE * BATCH_SIZE < n + BATCH_SIZE)%nat.
Proof.
  unfold BATCH_SIZE. change (20 - 1)%nat with 19%nat.
  pose proof (Nat.div_mod_eq (n + 19) 20) as H1.
  pose proof (Nat.mod_upper_bound (n + 19) 20) as H2.
  lia.
Qed.

(** Cutting a list into slices of [BATCH_SIZE] loses and repeats nothing. *)
Lemma slices_concat {A : Type} (m : nat) :
  forall l : list A,
    (length l <= m * BATCH_SIZE)%nat ->
    concat
      (map (fun k => firstn BATCH_SIZE (skipn (k * BATCH_SIZE) l)) (seq 0 m)) = l.
Proof.
  induction m as [|m IH]; intros l Hl.
  - destruct l; [reflexivity|simpl in Hl; lia].
  - cbn [seq map concat]. rewrite <- seq_shift, map_map.
    change (0 * BATCH_SIZE)%nat with 0%nat. cbn [skipn].
    transitivity (firstn BATCH_SIZE l ++ skipn BATCH_SIZE l);
      [|apply firstn_skipn].
    f_equal.
    etransitivity; [|apply (IH (skipn BATCH_SIZE l))].
    + f_equal. apply map_ext. intros k. rewrite skipn_skipn.
      f_equal. f_equal. unfold BATCH_SIZE. lia.
    + rewrite length_skipn. unfold BATCH_SIZE in *. lia.
Qed.

Lemma batches_concat {A : Type} (l : list A) :
  flat_map (fun i => firstn BATCH_SIZE (skipn i l)) (batchStarts (length l)) = l.
Proof.
  unfold batchStarts. rewrite flat_map_concat_map, map_map.
  apply slices_concat. apply batch_count_bounds.
Qed.

Lemma batchStarts_below (n i : nat) :
  In i (batchStarts n) -> (i < n)%nat.
Proof.
  unfold batchStarts. intros H. apply in_map_iff in H as (k & <- & Hk).
  apply in_seq in Hk. pose proof (batch_count_bounds n) as [_ Hb].
  unfold BATCH_SIZE in *. nia.
Qed.

Section EmbedFacts.

Variable number : Type.
Variable create : nat -> list jsstring -> option (list (list number)).

Local Abbreviation chunk := (EmbeddedChunk number).

Local Abbreviation batchAt chunks i := (firstn BATCH_SIZE (skipn i chunks)).

Local Abbreviation textsAt chunks i :=
  (map (fun c : chunk => content (base c)) (batchAt chunks i)).

Local Abbreviation pushedAt chunks i :=
  (embeddedChunks
     (embedStep create chunks
        {| embeddedChunks := []; calls := []; delays := 0 |} i)).

Lemma pushEmbedded_map (g : jsstring -> list number) (batch : list chunk) :
  pushEmbedded batch (map g (map (fun c => content (base c)) batch)) =
  (map (fun c => withEmbedding c (g (content (base c)))) batch, true).
Proof.
  induction batch as [|c batch IH]; [reflexivity|].
  cbn [map pushEmbedded]. rewrite IH. reflexivity.
Qed.

Lemma pushEmbedded_combine (batch : list chunk) :
  forall data,
    pushEmbedded batch data =
    (map (fun p => withEmbedding (fst p) (snd p)) (combine batch data),
     (length batch <=? length data)%nat).
Proof.
  induction batch as [|c batch IH]; intros data; [reflexivity|].
  destruct data as [|v data]; [reflexivity|].
  cbn [pushEmbedded]. rewrite IH. reflexivity.
Qed.

Lemma pushEmbedded_kept (batch : list chunk) :
  forall data,
    map withoutEmbedding (fst (pushEmbedded batch data)) =
    firstn (length data) (map withoutEmbedding batch).
Proof.
  induction batch as [|c batch IH]; intros data.
  - rewrite firstn_nil. reflexivity.
  - destruct data as [|v data]; [reflexivity|].
    cbn [pushEmbedded]. specialize (IH data).
    destruct (pushEmbedded batch data) as [pushed done].
    cbn [fst map length firstn] in *. rewrite IH. reflexivity.
Qed.

Lemma embedStep_chunks (chunks : list chunk) (run : embedRun number) (i : nat) :
  embeddedChunks (embedStep create chunks run i) =
  embeddedChunks run ++ pushedAt chunks i.
Proof.
  unfold embedStep. destruct (create i _) as [data|]; [|reflexivity].
  destruct (pushEmbedded _ data) as [pushed [|]]; reflexivity.
Qed.

Lemma embedStep_calls (chunks : list chunk) (run : embedRun number) (i : nat) :
  calls (embedStep create chunks run i) = calls run ++ [textsAt chunks i].
Proof.
  unfold embedStep. destruct (create i _) as [data|]; [|reflexivity].
  destruct (pushEmbedded _ data) as [pushed [|]]; reflexivity.
Qed.

Lemma embedStep_delays (chunks : list chunk) (run : embedRun number) (i : nat) :
  (delays (embedStep create chunks run i) <=
   delays run + (if (i + BATCH_SIZE <? length chunks)%nat then 1 else 0))%nat.
Proof.
  unfold embedStep. destruct (create i _) as [data|].
  - destruct (pushEmbedded _ data) as [pushed [|]]; cbn [delays].
    + destruct (_ <? _)%nat; lia.
    + lia.
  - cbn [delays]. lia.
Qed.

Lemma fold_embedStep_chunks (chunks : list chunk) (starts : list nat) :
  forall run,
    embeddedChunks (fold_left (embedStep create chunks) starts run) =
    embeddedChunks run ++ flat_map (fun i => pushedAt chunks i) starts.
Proof.
  induction starts as [|i starts IH]; intros run; cbn [fold_left flat_map].
  - rewrite app_nil_r. reflexivity.
  - rewrite IH, embedStep_chunks, <- app_assoc. reflexivity.
Qed.

Lemma fold_embedStep_calls (chunks : list chunk) (starts : list nat) :
  forall run,
    calls (fold_left (embedStep create chunks) starts run) =
    calls run ++ map (fun i => textsAt chunks i) starts.
Proof.
  induction starts as [|i starts IH]; intros run; cbn [fold_left map].
  - rewrite app_nil_r. reflexivity.
  - rewrite IH, embedStep_calls, <- app_assoc. reflexivity.
Qed.

Lemma fold_embedStep_delays (chunks : list chunk) (starts : list nat) :
  forall run,
    (delays (fold_left (embedStep create chunks) starts run) <=
     delays run
     + length (filter (fun i => (i + BATCH_SIZE <? length chunks)%nat) starts))%nat.
Proof.
  induction starts as [|i starts IH]; intros run; cbn [fold_left filter].
  - cbn [length]. lia.
  - specialize (IH (embedStep create chunks run i)).
    pose proof (embedStep_delays chunks run i) as Hd.
    destruct (_ <? _)%nat; cbn [length]; lia.
Qed.

Lemma embedChunks_batches (chunks : list chunk) :
  embedChunks create chunks =
  flat_map (fun i => pushedAt chunks i) (batchStarts (length chunks)).
Proof.
  unfold embedChunks, embedChunksRun. rewrite fold_embedStep_chunks.
  reflexivity.
Qed.

Lemma embedChunks_per_text (g : jsstring -> list number)
    (chunks : list chunk) :
  (forall i texts, create i texts = Some (map g texts)) ->
  embedChunks create chunks =
  map (fun c => withEmbedding c (g (content (base c)))) chunks.
Proof.
  intros Hcreate. rewrite embedChunks_batches.
  etransitivity; [|apply (f_equal (map _) (batches_concat chunks))].
  rewrite <- flat_map_map. apply flat_map_ext. intros i.
  unfold embedStep. rewrite Hcreate, pushEmbedded_map. reflexivity.
Qed.

Lemma fold_embedStep_delays_answered (g : jsstring -> list number)
    (chunks : list chunk) (starts : list nat) :
  (forall i texts, create i texts = Some (map g texts)) ->
  forall run,
    delays (fold_left (embedStep create chunks) starts run) =
    (delays run
     + length (filter (fun i => (i + BATCH_SIZE <? length chunks)%nat) starts))%nat.
Proof.
  intros Hcreate.
  induction starts as [|i starts IH]; intros run; cbn [fold_left filter].
  - cbn [length]. lia.
  - rewrite IH. unfold embedStep. rewrite Hcreate, pushEmbedded_map.
    cbn [delays]. destruct (_ <? _)%nat; cbn [length]; lia.
Qed.

Lemma filter_all {A : Type} (p : A -> bool) (l : list A) :
  (forall x, In x l -> p x = true) -> filter p l = l.
Proof.
  induction l as [|x l IH]; intros H; [reflexivity|].
  cbn [filter]. rewrite (H x (or_introl eq_refl)), IH; [reflexivity|].
  intros y Hy. apply H. right. exact Hy.
Qed.

(** X12: when the service answers every call with one vector for each
    text, the vector depending on the text alone, the result is every
    chunk with the vector of its content, in the order of the chunks:
    the batches do not show.  The run waits once between two batches and
    not after the last one. *)
Theorem embedChunks_transparent (g : jsstring -> list number)
    (chunks : list chunk) :
  (forall i texts, create i texts = Some (map g texts)) ->
  embedChunks create chunks =
  map (fun c => withEmbedding c (g (content (base c)))) chunks
  /\ delays (embedChunksRun create chunks) =
     ((length chunks + (BATCH_SIZE - 1)) / BATCH_SIZE - 1)%nat.
Proof.
  intros Hcreate. split; [apply embedChunks_per_text, Hcreate|].
  unfold embedChunksRun.
  rewrite (@fold_embedStep_delays_answered g chunks _ Hcreate).
  cbn [delays Nat.add]. unfold batchStarts.
  pose proof (batch_count_bounds (length chunks)) as [Hlow Hhigh].
  destruct ((length chunks + (BATCH_SIZE - 1)) / BATCH_SIZE)%nat
    as [|m]; [reflexivity|].
  rewrite seq_S, map_app, filter_app, length_app. cbn [map filter Nat.add].
  assert (Hlast : (m * BATCH_SIZE + BATCH_SIZE <? length chunks)%nat = false).
  { apply Nat.ltb_ge. unfold BATCH_SIZE in *. lia. }
  rewrite Hlast, filter_all.
  - rewrite length_map, length_seq. cbn [length]. lia.
  - intros i Hi. apply in_map_iff in Hi as (k & <- & Hk).
    apply in_seq in Hk. apply Nat.ltb_lt. unfold BATCH_SIZE in *. nia.
Qed.

(** X13: when every call to the service throws, [embedChunks] throws
    nothing and returns the chunks as they were given, without waiting
    between the batches. *)
Theorem embedChunks_service_down (chunks : list chunk) :
  (forall i texts, create i texts = None) ->
  embedChunks create chunks = chunks
  /\ delays (embedChunksRun create chunks) = 0%nat.
Proof.
  intros Hcreate. split.
  - rewrite embedChunks_batches.
    etransitivity; [|apply (batches_concat chunks)].
    apply flat_map_ext. intros i.
    unfold embedStep. rewrite Hcreate. reflexivity.
  - unfold embedChunksRun.
    generalize (batchStarts (length chunks)) as starts.
    assert (H : forall starts run,
               delays (fold_left (embedStep create chunks) starts run) =
               delays run).
    { induction starts as [|i starts IH]; intros run; [reflexivity|].
      cbn [fold_left]. rewrite IH. unfold embedStep. rewrite Hcreate.
      reflexivity. }
    intros starts. rewrite H. reflexivity.
Qed.

Lemma pushedAt_keeps (chunks : list chunk) (i : nat) :
  subseq (map withoutEmbedding (batchAt chunks i))
    (map withoutEmbedding (pushedAt chunks i)).
Proof.
  unfold embedStep. destruct (create i _) as [data|]; [|apply subseq_refl].
  rewrite pushEmbedded_combine.
  destruct (_ <=? _)%nat eqn:E; cbn [embeddedChunks app].
  - pose proof (pushEmbedded_kept (batchAt chunks i) data) as Hk.
    rewrite pushEmbedded_combine in Hk. cbn [fst] in Hk. rewrite Hk.
    apply Nat.leb_le in E.
    rewrite (@firstn_all2 _ (length data)
               (map withoutEmbedding (batchAt chunks i)));
      [apply subseq_refl|rewrite length_map; exact E].
  - rewrite map_app.
    rewrite <- (app_nil_l (map withoutEmbedding (batchAt chunks i))) at 1.
    apply subseq_app; [apply subseq_nil_l|apply subseq_refl].
Qed.

Lemma pushedAt_same (chunks : list chunk) (i : nat) :
  (forall data,
     create i (textsAt chunks i) = Some data ->
     (length (textsAt chunks i) <= length data)%nat) ->
  map withoutEmbedding (pushedAt chunks i) =
  map withoutEmbedding (batchAt chunks i).
Proof.
  intros Hlen. unfold embedStep.
  destruct (create i _) as [data|]; [|reflexivity].
  specialize (Hlen data eq_refl). rewrite length_map in Hlen.
  pose proof (pushEmbedded_kept (batchAt chunks i) data) as Hk.
  rewrite pushEmbedded_combine in *. cbn [fst] in Hk.
  apply Nat.leb_le in Hlen. rewrite Hlen. cbn [embeddedChunks app].
  rewrite Hk. apply Nat.leb_le in Hlen.
  apply firstn_all2. rewrite length_map. exact Hlen.
Qed.

(** X14: whatever the service answers, [embedChunks] loses no chunk and
    changes none but for its embedding: the chunks given are among the
    chunks returned, in their order.  When no answer has fewer vectors
    than the call has texts, the chunks returned are the chunks given,
    one for one. *)
Theorem embedChunks_loses_nothing (chunks : list chunk) :
  subseq (map withoutEmbedding chunks)
    (map withoutEmbedding (embedChunks create chunks))
  /\ ((forall i texts data,
         create i texts = Some data -> (length texts <= length data)%nat) ->
      map withoutEmbedding (embedChunks create chunks) =
      map withoutEmbedding chunks).
Proof.
  rewrite embedChunks_batches.
  assert (E : map withoutEmbedding chunks =
              map withoutEmbedding
                (flat_map (fun i => batchAt chunks i)
                   (batchStarts (length chunks))))
    by (rewrite batches_concat; reflexivity).
  rewrite E. clear E. split.
  - rewrite <- !flat_map_map. apply subseq_flat_map. intros i.
    apply pushedAt_keeps.
  - intros Hlen.
    rewrite <- !flat_map_map. apply flat_map_ext. intros i.
    apply pushedAt_same. intros data. apply Hlen.
Qed.

(** X15: an answer with fewer vectors than the call has texts makes
    [embedChunks] return chunks twice: for a list of at most [BATCH_SIZE]
    chunks, first the chunks that got a vector, then all the chunks as
    they were given. *)
Theorem embedChunks_short_answer (chunks : list chunk)
    (data : list (list number)) :
  (length chunks <= BATCH_SIZE)%nat ->
  create 0 (map (fun c => content (base c)) chunks) = Some data ->
  (length data < length chunks)%nat ->
  embedChunks create chunks =
  map (fun p => withEmbedding (fst p) (snd p)) (combine chunks data) ++ chunks.
Proof.
  intros Hsize Hcreate Hshort. rewrite embedChunks_batches.
  assert (Hstarts : batchStarts (length chunks) = [0%nat]).
  { unfold batchStarts.
    assert (Hq : ((length chunks + (BATCH_SIZE - 1)) / BATCH_SIZE = 1)%nat).
    { pose proof (batch_count_bounds (length chunks)) as [H1 H2].
      unfold BATCH_SIZE in *. nia. }
    rewrite Hq. reflexivity. }
  rewrite Hstarts. cbn [flat_map]. rewrite app_nil_r.
  unfold embedStep. cbn [skipn].
  rewrite (firstn_all2 chunks Hsize), Hcreate, pushEmbedded_combine.
  apply Nat.leb_gt in Hshort. rewrite Hshort. reflexivity.
Qed.

(** X16: the calls to the service.  Every content is sent exactly once,
    in the order of the chunks; every call has between one and
    [BATCH_SIZE] texts; the number of calls is the number of chunks over
    [BATCH_SIZE], rounded up; and there are fewer delays than calls, unless
    there is no call. *)
Theorem embedChunks_calls (chunks : list chunk) :
  let run := embedChunksRun create chunks in
  concat (calls run) = map (fun c => content (base c)) chunks
  /\ Forall (fun texts => (1 <= length texts <= BATCH_SIZE)%nat) (calls run)
  /\ length (calls run) =
     ((length chunks + (BATCH_SIZE - 1)) / BATCH_SIZE)%nat
  /\ (delays run <= length (calls run) - 1)%nat.
Proof.
  intros run. subst run. unfold embedChunksRun.
  rewrite fold_embedStep_calls. cbn [calls app].
  split; [|split; [|split]].
  - rewrite <- flat_map_concat_map, flat_map_map, batches_concat. reflexivity.
  - apply Forall_forall. intros texts Ht.
    apply in_map_iff in Ht as (i & <- & Hi).
    apply batchStarts_below in Hi.
    rewrite length_map, length_firstn, length_skipn.
    unfold BATCH_SIZE. lia.
  - unfold batchStarts. rewrite !length_map, length_seq. reflexivity.
  - pose proof (fold_embedStep_delays chunks (batchStarts (length chunks))
                  {| embeddedChunks := []; calls := []; delays := 0 |}) as Hd.
    cbn [delays] in Hd. rewrite length_map.
    eapply Nat.le_trans; [exact Hd|]. cbn [Nat.add].
    unfold batchStarts. rewrite length_map, length_seq.
    destruct ((length chunks + (BATCH_SIZE - 1)) / BATCH_SIZE)%nat
      as [|m] eqn:Em; [cbn; lia|].
    rewrite seq_S, map_app, filter_app, length_app. cbn [map filter Nat.add].
    assert (Hlast : (m * BATCH_SIZE + BATCH_SIZE <? length chunks)%nat = false).
    { apply Nat.ltb_ge. pose proof (batch_count_bounds (length chunks)) as [H1 _].
      rewrite Em in H1. unfold BATCH_SIZE in *. lia. }
    rewrite Hlast. cbn [length].
    pose proof (filter_length_le
                  (fun i => (i + BATCH_SIZE <? length chunks)%nat)
                  (map (fun k => (k * BATCH_SIZE)%nat) (seq 0 m))) as Hf.
    rewrite length_map, length_seq in Hf. lia.
Qed.

(** X17: the pipeline without enrichment and with a service that answers
    every text with its vector: the ['rag'] output has one record for each
    chunk of [chunkPages], in order, with the id, the content and the
    metadata of the chunk, an empty enrichment and the vector of the
    content. *)
Theorem rag_output_of_pages (encode : tokenizer)
    (g : jsstring -> list number) (pages : list ExtractedPage)
    (options : ChunkOptions) (cfg : EnrichmentConfig) :
  (forall i texts, create i texts = Some (map g texts)) ->
  formatOutput
    (embedChunks create
       (map (fresh (number := number)) (chunkPages encode pages options)))
    (str "rag") cfg =
  map (fun c =>
         RagItem
           {| rag_id := id c;
              rag_content := content c;
              rag_metadata := metadata c;
              rag_enrichment := noEnrichment;
              rag_embedding := Some (g (content c)) |})
    (chunkPages encode pages options).
Proof.
  intros Hcreate. unfold formatOutput. rewrite strEq_refl.
  rewrite (@embedChunks_per_text g _ Hcreate), !map_map. reflexivity.
Qed.

End EmbedFacts.

Lemma markdown_of_chunkPages_witness :
  let document :=
    flat_map
      (fun p : ExtractedPage =>
         match chunkContent unitTokenizer (page_content p) 10 0 with
         | [] => []
         | text :: texts =>
             [ str "# "
               ++ (if truthy (page_title p) then page_title p
                   else str "Untitled");
               [];
               str "> **Source:** " ++ url p;
               [] ]
             ++ flat_map (fun t => [t; []]) (text :: texts)
             ++ [str "---"; []]
         end)
      [page_one; page_two] in
  markdownLines sample_chunks enrichment_on = document
  /\ generateMarkdownDocument sample_chunks enrichment_on = join [LF] document.
Proof.
  apply (@markdown_of_chunkPages Z unitTokenizer [page_one; page_two]
           {| chunkSize := 10; chunkOverlap := 0; outputFormat := str "rag" |}
           enrichment_on).
  repeat constructor; cbn; intuition discriminate.
Defined.

Lemma embedChunks_transparent_witness :
  embedChunks create_lengths sample_chunks =
  map (fun c => withEmbedding c (lengthVector (content (base c))))
    sample_chunks
  /\ delays (embedChunksRun create_lengths sample_chunks) =
     ((length sample_chunks + (BATCH_SIZE - 1)) / BATCH_SIZE - 1)%nat.
Proof.
  apply (@embedChunks_transparent Z create_lengths lengthVector sample_chunks).
  intros i texts. reflexivity.
Defined.

Lemma embedChunks_service_down_witness :
  embedChunks create_down sample_chunks = sample_chunks
  /\ delays (embedChunksRun create_down sample_chunks) = 0%nat.
Proof.
  apply (@embedChunks_service_down Z create_down sample_chunks).
  intros i texts. reflexivity.
Defined.

Lemma embedChunks_short_answer_witness :
  embedChunks create_one sample_chunks =
  map (fun p => withEmbedding (fst p) (snd p)) (combine sample_chunks [[0]])
  ++ sample_chunks.
Proof.
  apply (@embedChunks_short_answer Z create_one sample_chunks [[0]]).
  - vm_compute. lia.
  - reflexivity.
  - vm_compute. lia.
Defined.

Lemma rag_output_of_pages_witness :
  formatOutput
    (embedChunks create_lengths
       (map (fresh (number := Z))
          (chunkPages unitTokenizer [page_one; page_two]
             {| chunkSize := 10; chunkOverlap := 0;
                outputFormat := str "rag" |})))
    (str "rag") enrichment_on =
  map (fun c =>
         RagItem
           {| rag_id := id c;
              rag_content := content c;
              rag_metadata := metadata c;
              rag_enrichment := noEnrichment;
              rag_embedding := Some (lengthVector (content c)) |})
    (chunkPages unitTokenizer [page_one; page_two]
       {| chunkSize := 10; chunkOverlap := 0; outputFormat := str "rag" |}).
Proof.
  apply (@rag_output_of_pages Z create_lengths unitTokenizer lengthVector).
  intros i texts. reflexivity.
Defined.
